(** * go-allure: the gotest reader (internal/gotest/reader.go)

    A shallow embedding of [Reader.ReadAll] and [Reader.walk]: the event
    aggregator that folds line-delimited test events into a prefix tree,
    and the recursive log reconstruction over that tree.

    Go strings are byte strings and are modelled by [string]; Go [int] is
    modelled by [Z] where the code relies on a large constant ([mx]) and by
    [nat] for lengths and counts.  The shared [bytes.Buffer] of the walk is
    threaded explicitly; a nil-pointer dereference is the outcome [Panic]. *)

From Stdlib Require Import String Ascii List ZArith Lia Bool Arith PeanoNat.
From Stdlib Require Import Permutation Sorted.
Import ListNotations.
Local Open Scope list_scope.
Local Open Scope string_scope.

Set Implicit Arguments.
Set Warnings "-register-all".

(* ===================================================================== *)
(** ** The pieces of Go's standard library the reader calls *)
(* ===================================================================== *)

(** The line feed, Go's ['\n']. *)
Definition LF : ascii := "010"%char.

(** ["\n"] as a one-byte string. *)
Definition NL : string := String LF "".

(** [s[n:]] for [n <= len(s)]; the empty string past the end. *)
Fixpoint drop (n : nat) (s : string) : string :=
  match n, s with
  | 0, _ => s
  | S _, "" => ""
  | S n', String _ r => drop n' r
  end.

(** [s[:n]] for [n <= len(s)]; the whole string past the end. *)
Fixpoint take (n : nat) (s : string) : string :=
  match n, s with
  | 0, _ => ""
  | S _, "" => ""
  | S n', String c r => String c (take n' r)
  end.

(** Concatenation of a sequence of strings, as repeated [append]. *)
Fixpoint concat_all (l : list string) : string :=
  match l with
  | [] => ""
  | s :: r => s ++ concat_all r
  end.

Module strings.

(** [strings.HasPrefix(s, prefix)]. *)
Fixpoint HasPrefix (s p : string) {struct p} : bool :=
  match p with
  | "" => true
  | String a p' =>
      match s with
      | "" => false
      | String b s' => Ascii.eqb a b && HasPrefix s' p'
      end
  end.

(** [strings.Index(s, substr)]: the byte offset of the first instance of
    [substr] in [s]; Go's [-1] is [None]. *)
Fixpoint Index (s substr : string) {struct s} : option nat :=
  if HasPrefix s substr then Some 0
  else match s with
       | "" => None
       | String _ r => option_map S (Index r substr)
       end.

(** [strings.Contains(s, substr)] is [Index(s, substr) >= 0]. *)
Definition Contains (s substr : string) : bool :=
  match Index s substr with Some _ => true | None => false end.

(** The loop of [strings.Count] for a non-empty [substr]:
    [i := Index(s, substr); if i == -1 return n; n++; s = s[i+len(substr):]].
    Every round consumes at least one byte, so [len(s)+1] rounds are
    enough ([Count_unfold] below). *)
Fixpoint count_loop (fuel : nat) (s substr : string) : nat :=
  match fuel with
  | 0 => 0
  | S fuel' =>
      match Index s substr with
      | None => 0
      | Some i => S (count_loop fuel' (drop (i + String.length substr) s) substr)
      end
  end.

(** [strings.Count(s, substr)], the number of non-overlapping instances
    of a non-empty [substr] in [s]. *)
Definition Count (s substr : string) : nat :=
  count_loop (S (String.length s)) s substr.

(** The copying loop of [strings.Replace] for a non-empty [old]: [n]
    rounds, each copying [s[start:j]] and [new] and moving [start] past
    the instance found at [j]; the rest of [s] is copied at the end. *)
Fixpoint replace_loop (n : nat) (s old new : string) : string :=
  match n with
  | 0 => s
  | S n' =>
      match Index s old with
      | None => s
      | Some j => take j s ++ new ++ replace_loop n' (drop (j + String.length old) s) old new
      end
  end.

(** [strings.Replace(s, old, new, n)]: the first [n] non-overlapping
    instances of [old] replaced by [new]; no limit when [n < 0]. *)
Definition Replace (s old new : string) (n : Z) : string :=
  if String.eqb old new || (n =? 0)%Z then s
  else
    let m := Count s old in
    if (m =? 0)%nat then s
    else
      let n' := if ((n <? 0) || (Z.of_nat m <? n))%Z then m else Z.to_nat n in
      replace_loop n' s old new.

(** [strings.HasSuffix(s, suffix)]. *)
Definition HasSuffix (s suffix : string) : bool :=
  (String.length suffix <=? String.length s)%nat
  && String.eqb (drop (String.length s - String.length suffix) s) suffix.

(** [strings.TrimSuffix(s, suffix)]. *)
Definition TrimSuffix (s suffix : string) : string :=
  if HasSuffix s suffix then take (String.length s - String.length suffix) s else s.

(** [strings.ToUpper] on ASCII letters (it is applied to the three
    lower-case ASCII verdict constants only). *)
Definition upper_byte (c : ascii) : ascii :=
  let n := nat_of_ascii c in
  if ((97 <=? n) && (n <=? 122))%nat then ascii_of_nat (n - 32) else c.

(** [strings.ToUpper], byte by byte. *)
Fixpoint ToUpper (s : string) : string :=
  match s with
  | "" => ""
  | String c r => String (upper_byte c) (ToUpper r)
  end.

End strings.

Module bytes.

(** [bytes.Split(s, []byte{sep})] for a one-byte separator: the pieces
    between the separators, [n+1] pieces for [n] separators (one empty
    piece for the empty input). *)
Fixpoint Split (s : string) (sep : ascii) : list string :=
  match s with
  | "" => [""]
  | String c r =>
      if Ascii.eqb c sep then "" :: Split r sep
      else match Split r sep with
           | [] => [String c ""]
           | piece :: rest => String c piece :: rest
           end
  end.

End bytes.

(* ===================================================================== *)
(** ** Constants and the line classifier of [walk] *)
(* ===================================================================== *)

(** Modelled from the spec: the constant [ActionFail] is declared outside
    reader.go; the spec gives the action vocabulary as "run", "output",
    "pass", "fail", "skip". *)
Definition ActionFail : string := "fail".

(** Modelled from the spec: the constant [ActionPass], declared outside
    reader.go. *)
Definition ActionPass : string := "pass".

(** Modelled from the spec: the constant [ActionSkip], declared outside
    reader.go. *)
Definition ActionSkip : string := "skip".

(** Modelled from the spec: the action of an output event, which
    [Test.Update] tests for. *)
Definition ActionOutput : string := "output".

(** [const whitespaceIndent = "    "] (four spaces). *)
Definition whitespaceIndent : string := "    ".

(** The closure [isResultActionRow] of [walk] (reader.go, lines 110-117). *)
Definition isResultActionRow (s : string) : bool :=
  let isGroupPrefix := strings.Contains s "---" in
  let isAction :=
    strings.Contains s (strings.ToUpper ActionFail)
    || strings.Contains s (strings.ToUpper ActionPass)
    || strings.Contains s (strings.ToUpper ActionSkip) in
  isGroupPrefix && isAction.

(** [sub] occurs in [s] as a contiguous substring. *)
Definition substring_of (sub s : string) : Prop :=
  exists pre post, s = pre ++ sub ++ post.

Module sort.

(** [insertionSort_func(data, 0, len)] of Go's sort package:
    [for i := 1; i < n; i++ { for j := i; j > 0 && less(j, j-1); j-- { swap(j, j-1) } }].
    [sunk] is the part already sorted, held nearest neighbour first (that
    is, reversed); [sink] moves the new element left past every neighbour
    it is less than. *)
Fixpoint sink (less : string -> string -> bool) (x : string) (sunk : list string)
  : list string :=
  match sunk with
  | [] => [x]
  | y :: rest => if less x y then y :: sink less x rest else x :: y :: rest
  end.

(** The rows sunk one after the other, from the first. *)
Definition insertionSort (less : string -> string -> bool) (data : list string)
  : list string :=
  rev (fold_left (fun sunk x => sink less x sunk) data []).

(** [sort.Slice(x, less)] (Go 1.19 and later, [pdqsort_func]): at most
    [maxInsertion = 12] elements are sorted by insertion sort; a longer
    slice goes through pattern-defeating quicksort, which is library code
    outside this repository and is taken as the parameter [pdqsort]. *)
Definition Slice (pdqsort : (string -> string -> bool) -> list string -> list string)
  (less : string -> string -> bool) (x : list string) : list string :=
  if (List.length x <=? 12)%nat then insertionSort less x else pdqsort less x.

End sort.

Module errors.

(** [errors.Join(errs...)]: nil when there is no error to join, otherwise
    one error wrapping all of them in order.  Every element of [errs] in
    [ReadAll] comes from [fmt.Errorf] and is non-nil. *)
Definition Join (errs : list string) : option (list string) :=
  match errs with
  | [] => None
  | _ :: _ => Some errs
  end.

End errors.

(* ===================================================================== *)
(** ** Data model *)
(* ===================================================================== *)

Module Test.

(** Modelled from the spec: the struct [Test] is declared outside
    reader.go.  The reader uses its fields [Name], [Package] and [Output]
    (a slice of strings); the spec adds the verdict and timing set by the
    last pass, fail or skip event. *)
Record t : Type := mk {
  Name : string;
  Package : string;
  Output : list string;
  Status : string;
  Elapsed : Z
}.

(** The zero value of the struct. *)
Definition zero : t := mk "" "" [] "" 0.

(** [Output] replaced, every other field kept. *)
Definition with_Output (tc : t) (out : list string) : t :=
  mk (Name tc) (Package tc) out (Status tc) (Elapsed tc).

End Test.

Module Entry.

(** Modelled from the spec: the struct [Entry], the decoded input record,
    is declared outside reader.go.  The reader uses [TestName] and
    [Package]; the spec adds the action, the output fragment and timing. *)
Record t : Type := mk {
  Action : string;
  Package : string;
  TestName : string;
  Elapsed : Z;
  Output : string
}.

End Entry.

(** Modelled from the spec: the struct [prefixNode] is declared outside
    reader.go.  [walk] reads its fields [Value] (a [*Test]) and [Children]
    (a sequence of [*prefixNode]).  A value of this type is a pointer:
    [nil_node] is the nil [*prefixNode], and [Value = None] a nil [*Test]. *)
Inductive prefixNode : Type :=
| nil_node : prefixNode
| Node (Value : option Test.t) (Children : list prefixNode) : prefixNode.

(** [type NestedTest struct { Value Test; Children []NestedTest; Log []byte }]. *)
Inductive NestedTest : Type :=
| mkNestedTest (Value : Test.t) (Children : list NestedTest) (Log : string) : NestedTest.

(** The fields of a [NestedTest]. *)
Definition NestedTest_Value (n : NestedTest) : Test.t :=
  match n with mkNestedTest v _ _ => v end.

Definition NestedTest_Children (n : NestedTest) : list NestedTest :=
  match n with mkNestedTest _ c _ => c end.

Definition NestedTest_Log (n : NestedTest) : string :=
  match n with mkNestedTest _ _ l => l end.

(** [var testCase NestedTest] and [NestedTest{}]. *)
Definition NestedTest_zero : NestedTest := mkNestedTest Test.zero [] "".

(** [type Set struct { Err error; Tests []NestedTest }]; [Set_zero] is [Set{}]. *)
Record Set_ : Type := mkSet {
  Err : option (list string);
  Tests : list NestedTest
}.

(** [Set{}]. *)
Definition Set_zero : Set_ := mkSet None [].

(** [type prefixLog struct { prefix string; buf *bytes.Buffer; pos int }].
    The buffer behind [buf] is shared by every copy; it is threaded
    through [walk] as a separate argument and result. *)
Record prefixLog : Type := mkPrefixLog {
  prefix : string;
  pos : nat
}.

(** [newPrefixLog()]: a fresh, empty buffer goes with it. *)
Definition newPrefixLog : prefixLog := mkPrefixLog "" 0.

(** [prefixLog.copy]: same buffer, same prefix, [pos = r.buf.Len()]. *)
Definition copy (r : prefixLog) (buf : string) : prefixLog :=
  mkPrefixLog (prefix r) (String.length buf).

(** [prefixLog.incrPrefix]. *)
Definition incrPrefix (r : prefixLog) : prefixLog :=
  mkPrefixLog (prefix r ++ whitespaceIndent) (pos r).

(** [prefixLog.decrPrefix]. *)
Definition decrPrefix (r : prefixLog) : prefixLog :=
  mkPrefixLog (strings.TrimSuffix (prefix r) whitespaceIndent) (pos r).

(* ===================================================================== *)
(** ** [Reader.walk] *)
(* ===================================================================== *)

(** What a call of [walk] leaves behind: a nil-pointer dereference, or the
    returned pair together with the caller's [prefixLog] and the shared
    buffer as the call left them. *)
Inductive walkResult : Type :=
| Panic : walkResult
| Return (testCase : NestedTest) (ok : bool) (prefix' : prefixLog) (buf' : string)
  : walkResult.

(** Lines 121-127: every fragment is written to the buffer, a result row
    with the prefix put in front (the assignment to [output[idx]] writes
    into the node's own backing array, which [walk] does not read again). *)
Fixpoint writeOutput (pre : string) (output : list string) (buf : string)
  : list string * string :=
  match output with
  | [] => ([], buf)
  | o :: rest =>
      let o' := if isResultActionRow o then pre ++ o else o in
      let '(rest', buf') := writeOutput pre rest (buf ++ o') in
      (o' :: rest', buf')
  end.

(** [stringsSlice[lastIdx] = f(stringsSlice[lastIdx])]. *)
Fixpoint update_last (f : string -> string) (l : list string) : list string :=
  match l with
  | [] => []
  | [x] => [f x]
  | x :: rest => x :: update_last f rest
  end.

(** Lines 147-167: the bytes of the buffer from [pos] on, split at line
    feeds, every piece terminated again except the last.  ([Seek] to a
    non-negative offset and [io.ReadAll] of a [bytes.Reader] do not fail;
    past the end nothing is read.  [bytes.Split] returns at least one
    piece, so [lastIdx >= 0].) *)
Definition stringsSlice_of (p : nat) (buf : string) : list string :=
  let all := drop p buf in
  let stringsSlice := map (fun t => t ++ NL) (bytes.Split all LF) in
  update_last (fun s => strings.TrimSuffix s NL) stringsSlice.

(** [mx := 1<<31 - 1]. *)
Definition mx_init : Z := 2147483647.

(** Lines 178-188, over the rows in the order the loop meets them (last
    row first): a result row is appended to [mark] and removed from
    [stringsSlice] ([kept] are the rows that stay, in their order), and
    [mx] is lowered to its count of indents. *)
Fixpoint mark_loop (rows_rev kept mark : list string) (mx : Z)
  : list string * list string * Z :=
  match rows_rev with
  | [] => (kept, mark, mx)
  | row :: rest =>
      if isResultActionRow row then
        let cnt := Z.of_nat (strings.Count row whitespaceIndent) in
        mark_loop rest kept (mark ++ [row])%list (if (cnt <? mx)%Z then cnt else mx)
      else mark_loop rest (row :: kept) mark mx
  end.

(** The [less] of line 192. *)
Definition less_indent (a b : string) : bool :=
  (strings.Count a whitespaceIndent <? strings.Count b whitespaceIndent)%nat.

Section Reader.

(** Go's pattern-defeating quicksort for slices longer than 12. *)
Variable pdqsort : (string -> string -> bool) -> list string -> list string.

(** Lines 171-201: the rows of the finished log in their final order,
    [append(stringsSlice, mark...)], and [mx]. *)
Definition ordered_rows (rows : list string) : list string * Z :=
  let '(kept, mark, mx) := mark_loop (rev rows) [] [] mx_init in
  ((kept ++ sort.Slice pdqsort less_indent mark)%list, mx).

(** Lines 199-202. *)
Definition build_log (rows : list string) : string :=
  let '(ordered, mx) := ordered_rows rows in
  concat_all (map (fun row => strings.Replace row whitespaceIndent "" mx) ordered).

(** Lines 139-143: the loop over [node.Children]; [walk1] is the recursive
    call, [pl] the prefix log of the parent after [incrPrefix]. *)
Definition walk_children
  (walk1 : prefixNode -> prefixLog -> string -> walkResult) (pl : prefixLog)
  : list prefixNode -> string -> list NestedTest -> option (list NestedTest * string) :=
  fix loop children buf acc :=
    match children with
    | [] => Some (acc, buf)
    | nod :: rest =>
        match walk1 nod (copy pl buf) buf with
        | Panic => None
        | Return child ok _ buf' => loop rest buf' (if ok then (acc ++ [child])%list else acc)
        end
    end.

(** [func (r *Reader) walk(node *prefixNode, prefix *prefixLog) (NestedTest, bool)]. *)
Fixpoint walk (node : prefixNode) (pl : prefixLog) (buf : string) {struct node}
  : walkResult :=
  match node with
  | nil_node => Return NestedTest_zero false pl buf
  | Node None _ => Panic
  | Node (Some value) children =>
      let '(_, buf1) := writeOutput (prefix pl) (Test.Output value) buf in
      let value' := Test.with_Output value [] in
      let pl1 := incrPrefix pl in
      match walk_children (fun nod p b => walk nod p b) pl1 children buf1 [] with
      | None => Panic
      | Some (kids, buf2) =>
          let log := build_log (stringsSlice_of (pos pl1) buf2) in
          Return (mkNestedTest value' kids log) true (decrPrefix pl1) buf2
      end
  end.

(** Lines 83-88 of [ReadAll]: every top-level node is walked with a prefix
    log and a buffer of its own. *)
Fixpoint walk_top (children : list prefixNode) (testCases : list NestedTest)
  : option (list NestedTest) :=
  match children with
  | [] => Some testCases
  | nod :: rest =>
      match walk nod newPrefixLog "" with
      | Panic => None
      | Return tc ok _ _ => walk_top rest (if ok then (testCases ++ [tc])%list else testCases)
      end
  end.

End Reader.

(* ===================================================================== *)
(** ** The prefix tree and [Test.Update] *)
(* ===================================================================== *)

(** Modelled from the spec: [Test.Update] is declared outside reader.go.
    "output-emitted events append their fragment to the Test's output
    sequence; pass/fail/skip events set terminal status and timing; other
    actions are accepted without effect". *)
Definition Update (tc : Test.t) (row : Entry.t) : Test.t :=
  if (Entry.Action row =? ActionOutput)%string then
    Test.with_Output tc (Test.Output tc ++ [Entry.Output row])%list
  else if ((Entry.Action row =? ActionPass) || (Entry.Action row =? ActionFail)
           || (Entry.Action row =? ActionSkip))%string then
    Test.mk (Test.Name tc) (Test.Package tc) (Test.Output tc)
            (Entry.Action row) (Entry.Elapsed row)
  else tc.

(** The key of a Test: [package + "/" + name]. *)
Definition key_of (tc : Test.t) : string :=
  Test.Package tc ++ "/" ++ Test.Name tc.

(** [node.Children]. *)
Definition children_of (node : prefixNode) : list prefixNode :=
  match node with
  | nil_node => []
  | Node _ children => children
  end.

Module Trie.

(** The Tests of a tree, parents before children, children in order. *)
Fixpoint tests (node : prefixNode) : list Test.t :=
  match node with
  | nil_node => []
  | Node value children =>
      (match value with Some tc => [tc] | None => [] end ++ flat_map tests children)%list
  end.

(** Modelled from the spec: [prefixNode.find] is declared outside
    reader.go.  "Look up key in the trie": the Test of the tree whose key
    is [key] (the first one met, parents before children; [insert] keeps
    the keys unique). *)
Definition find (root : prefixNode) (key : string) : option Test.t :=
  List.find (fun tc => (key_of tc =? key)%string) (tests root).

(** The first child that [m] changes, changed; [None] when it changes none. *)
Definition modify_first (m : prefixNode -> option prefixNode)
  : list prefixNode -> option (list prefixNode) :=
  fix go l :=
    match l with
    | [] => None
    | c :: rest =>
        match m c with
        | Some c' => Some (c' :: rest)
        | None => option_map (cons c) (go rest)
        end
    end.

(** The Test that [find] returns, changed in place by [f] (the model of a
    method call through the [*Test] that [find] or [insert] gave out);
    [None] when no Test has the key. *)
Fixpoint modify (key : string) (f : Test.t -> Test.t) (node : prefixNode) {struct node}
  : option prefixNode :=
  match node with
  | nil_node => None
  | Node value children =>
      let below := modify_first (fun c => modify key f c) children in
      match value with
      | Some tc =>
          if (key_of tc =? key)%string then Some (Node (Some (f tc)) children)
          else option_map (Node value) below
      | None => option_map (Node value) below
      end
  end.

(** The names of the ancestors of [name]: for every "/" of [name], the
    part of [name] before it ([done] is what was read so far).  These are
    the proper prefixes of the name split on "/". *)
Fixpoint parents_from (done name : string) : list string :=
  match name with
  | "" => []
  | String c rest =>
      if Ascii.eqb c "/" then done :: parents_from (done ++ "/") rest
      else parents_from (done ++ String c "") rest
  end.

(** The names of the ancestors of [name], outermost first. *)
Definition parents (name : string) : list string := parents_from "" name.

(** The node of the Test [tc], without children. *)
Definition leaf (tc : Test.t) : prefixNode := Node (Some tc) [].

(** [tc] added as the last child of the node whose Test has the key
    [parent]; [None] when no Test has that key. *)
Fixpoint add_child (parent : string) (tc : Test.t) (node : prefixNode) {struct node}
  : option prefixNode :=
  match node with
  | nil_node => None
  | Node value children =>
      let below := modify_first (fun c => add_child parent tc c) children in
      match value with
      | Some v =>
          if (key_of v =? parent)%string
          then Some (Node value (children ++ [leaf tc])%list)
          else option_map (Node value) below
      | None => option_map (Node value) below
      end
  end.

(** [tc] put under its parent: under the root when its name has one
    segment ([parent] is [None]), otherwise under the Test of the key
    [parent]; children keep their first-seen order. *)
Definition attach (parent : option string) (tc : Test.t) (root : prefixNode)
  : prefixNode :=
  match parent with
  | None =>
      match root with
      | nil_node => nil_node
      | Node value children => Node value (children ++ [leaf tc])%list
      end
  | Some key =>
      match add_child key tc root with
      | Some root' => root'
      | None => root
      end
  end.

(** The ancestors of a name, outermost first: one that is missing is made,
    with a Test of its own name, under the ancestor before it.  The result
    is the key of the innermost ancestor and the tree. *)
Fixpoint ensure (pkg : string) (ancestors : list string) (parent : option string)
  (root : prefixNode) {struct ancestors} : option string * prefixNode :=
  match ancestors with
  | [] => (parent, root)
  | name :: rest =>
      let key := pkg ++ "/" ++ name in
      match find root key with
      | Some _ => ensure pkg rest (Some key) root
      | None => ensure pkg rest (Some key) (attach parent (Test.mk name pkg [] "" 0) root)
      end
  end.

(** Modelled from the spec: [prefixNode.insert] is declared outside
    reader.go.  "insert it at the trie path derived from splitting name on
    "/": each prefix of the split name (combined with package) is a path
    segment; intermediate segments are created as parent nodes if missing,
    in first-seen order".  A Test is "keyed uniquely by package + "/" +
    name" and a node's Test is "nil only for the synthetic root": a path
    segment is missing when no Test has its key, and is then made with a
    Test of its own name; the children of a node are the Tests "whose
    compound key is this node's key with one additional segment". *)
Definition insert (root : prefixNode) (obj : Test.t) : prefixNode :=
  let '(parent, root1) :=
    ensure (Test.Package obj) (parents (Test.Name obj)) None root in
  match find root1 (key_of obj) with
  | Some _ => root1
  | None => attach parent obj root1
  end.

End Trie.

(* ===================================================================== *)
(** ** [Reader.ReadAll] *)
(* ===================================================================== *)

(** One scanned line, as [json.Unmarshal(line, &row)] leaves it: the
    record [row] (the zero [Entry] with whatever the decoder filled in)
    and the error it returned, if any.  A failed decode can leave fields
    set: the decoder goes on past a field of the wrong type. *)
Record Line : Type := mkLine {
  row : Entry.t;
  unmarshal_err : option string
}.

(** [fmt.Errorf("json.Unmarshal: %w", err)]. *)
Definition wrap_err (e : string) : string := "json.Unmarshal: " ++ e.

(** Lines 59-73: the event is folded into the Test of its key. *)
Definition fold_row (r : Entry.t) (root : prefixNode) : prefixNode :=
  if (0 <? String.length (Entry.TestName r))%nat then
    let key := Entry.Package r ++ "/" ++ Entry.TestName r in
    match Trie.find root key with
    | Some _ =>
        match Trie.modify key (fun tc => Update tc r) root with
        | Some root' => root'
        | None => root
        end
    | None =>
        let obj := Test.mk (Entry.TestName r) (Entry.Package r) [] "" 0 in
        let root1 := Trie.insert root obj in
        match Trie.modify key (fun tc => Update tc r) root1 with
        | Some root' => root'
        | None => root1
        end
    end
  else root.

(** Lines 52-57: the decode error of the line, if any, is appended. *)
Definition record_err (l : Line) (errs : list string) : list string :=
  match unmarshal_err l with
  | Some e => (errs ++ [wrap_err e])%list
  | None => errs
  end.

(** Lines 45-74, the scanning loop.  [ctx i] is what the cancellation
    check of round [i] observes: [Some e] when [ctx.Done()] is closed and
    [ctx.Err()] is [e].  The loop ends with the error of the context
    ([inl]) or with the errors and the tree ([inr]). *)
Fixpoint scan_loop (ctx : nat -> option string) (i : nat) (lines : list Line)
  (errs : list string) (root : prefixNode) : string + (list string * prefixNode) :=
  match lines with
  | [] => inr (errs, root)
  | l :: rest =>
      match ctx i with
      | Some e => inl e
      | None => scan_loop ctx (S i) rest (record_err l errs) (fold_row (row l) root)
      end
  end.

(** What a call of [ReadAll] does: it panics (in [walk]) or returns. *)
Inductive readResult : Type :=
| ReadPanic : readResult
| ReadReturn (result : Set_) (err : option string) : readResult.

(** [func (r *Reader) ReadAll(ctx context.Context) (Set, error)] over the
    lines the scanner yields. *)
Definition ReadAll (pdqsort : (string -> string -> bool) -> list string -> list string)
  (ctx : nat -> option string) (lines : list Line) : readResult :=
  match scan_loop ctx 0 lines [] (Node None []) with
  | inl e => ReadReturn Set_zero (Some e)
  | inr (errs, root) =>
      match walk_top pdqsort (children_of root) [] with
      | None => ReadPanic
      | Some testCases => ReadReturn (mkSet (errors.Join errs) testCases) None
      end
  end.

(* ===================================================================== *)
(** ** Notions the statements use *)
(* ===================================================================== *)

(** Induction over a tree, with the hypothesis for every child. *)
Fixpoint prefixNode_induction (P : prefixNode -> Prop)
  (Hnil : P nil_node)
  (Hnode : forall value children, Forall P children -> P (Node value children))
  (node : prefixNode) {struct node} : P node :=
  match node with
  | nil_node => Hnil
  | Node value children =>
      Hnode value children
        ((fix all (l : list prefixNode) : Forall P l :=
            match l with
            | [] => Forall_nil P
            | c :: rest => Forall_cons c (prefixNode_induction Hnil Hnode c) (all rest)
            end) children)
  end.

(** The order of [sort.Slice] by a count: [key a < key b]. *)
Definition less_by (key : string -> nat) (a b : string) : bool :=
  (key a <? key b)%nat.

(** Ascending by [key]. *)
Definition ascending (key : string -> nat) : list string -> Prop :=
  StronglySorted (fun a b => key a <= key b).

(** Descending by [key]: the shape of the part that insertion sort has
    sorted, which [sort.sink] holds reversed. *)
Definition descending (key : string -> nat) : list string -> Prop :=
  StronglySorted (fun a b => key b <= key a).

(** [k] spaces; the indent is four of them. *)
Fixpoint spaces (k : nat) : string :=
  match k with
  | 0 => ""
  | S k' => String " " (spaces k')
  end.

(** The rows of a slice that are not result rows: they stay in
    [stringsSlice]. *)
Definition narrative_rows (rows : list string) : list string :=
  filter (fun r => negb (isResultActionRow r)) rows.

(** The rows of a slice that are result rows. *)
Definition result_rows (rows : list string) : list string :=
  filter isResultActionRow rows.

(** The number of indents of a row, [strings.Count(row, whitespaceIndent)]. *)
Definition indent_count (row : string) : nat :=
  strings.Count row whitespaceIndent.

(** The least number of indents among the rows, capped by [1<<31 - 1]
    (which is also its value when there is no row). *)
Definition min_indent (rows : list string) : Z :=
  fold_right (fun r m => Z.min (Z.of_nat (indent_count r)) m) mx_init rows.

(** A fragment as [writeOutput] writes it. *)
Definition prefixed (pre o : string) : string :=
  if isResultActionRow o then pre ++ o else o.

(** Walking at the end of a buffer is walking on an empty buffer: the
    bytes already there are not read, and the same bytes are appended. *)
Definition at_end (pre b : string) (standalone : walkResult) : walkResult :=
  match standalone with
  | Panic => Panic
  | Return tc ok _ d => Return tc ok (mkPrefixLog pre (String.length b)) (b ++ d)
  end.

(** [f] applied to the first Test of a list whose key is [key]. *)
Fixpoint replace_first (key : string) (f : Test.t -> Test.t) (l : list Test.t)
  : option (list Test.t) :=
  match l with
  | [] => None
  | tc :: rest =>
      if (key_of tc =? key)%string then Some (f tc :: rest)
      else option_map (cons tc) (replace_first key f rest)
  end.

(** The parent of a Test to attach is the root or known to [find]. *)
Definition known_parent (parent : option string) (root : prefixNode) : Prop :=
  match parent with
  | None => True
  | Some key => Trie.find root key <> None
  end.

(** No two Tests of the tree have the same key. *)
Definition unique_keys (root : prefixNode) : Prop :=
  NoDup (map key_of (Trie.tests root)).

(** Every node of the subtree is there (not nil) and has a Test. *)
Fixpoint has_Tests (node : prefixNode) : bool :=
  match node with
  | nil_node => false
  | Node value children =>
      match value with Some _ => true | None => false end && forallb has_Tests children
  end.

(** The key of an event, [row.Package + "/" + row.TestName]. *)
Definition event_key (r : Entry.t) : string :=
  Entry.Package r ++ "/" ++ Entry.TestName r.

(** [&Test{Name: row.TestName, Package: row.Package}]. *)
Definition new_Test (r : Entry.t) : Test.t :=
  Test.mk (Entry.TestName r) (Entry.Package r) [] "" 0.

(** The tree after the events [rows], in their order. *)
Definition run (rows : list Entry.t) (root : prefixNode) : prefixNode :=
  fold_left (fun t r => fold_row r t) rows root.

(** The errors the loop has recorded after [lines]. *)
Definition decode_errs (lines : list Line) : list string :=
  flat_map (fun l => match unmarshal_err l with
                     | Some e => [wrap_err e]
                     | None => []
                     end) lines.

(** Lines 76-93 of [ReadAll]: the result built from the recorded errors
    and the tree. *)
Definition finish (pdqsort : (string -> string -> bool) -> list string -> list string)
  (errs : list string) (root : prefixNode) : readResult :=
  match walk_top pdqsort (children_of root) [] with
  | None => ReadPanic
  | Some testCases => ReadReturn (mkSet (errors.Join errs) testCases) None
  end.

(** The output of the Test that [find] returns for the key [k]; nothing
    when no Test has the key. *)
Definition outputs_of (root : prefixNode) (k : string) : list string :=
  match Trie.find root k with
  | Some tc => Test.Output tc
  | None => []
  end.

(** The fragments of the output events among [rows] that have a test
    name and the key [k], in the order of the events. *)
Definition outputs_for (k : string) (rows : list Entry.t) : list string :=
  flat_map (fun r => if ((0 <? String.length (Entry.TestName r))%nat
                         && (event_key r =? k)%string
                         && (Entry.Action r =? ActionOutput)%string)%bool
                     then [Entry.Output r] else []) rows.

(** The events among [rows] that have a test name and the key [k], in
    their order. *)
Definition events_for (k : string) (rows : list Entry.t) : list Entry.t :=
  filter (fun r => ((0 <? String.length (Entry.TestName r))%nat
                    && (event_key r =? k)%string)%bool) rows.

(** A Test as the loop or [insert] makes it: no output, no verdict, no
    timing yet. *)
Definition blank (tc : Test.t) : Prop :=
  Test.Output tc = [] /\ Test.Status tc = "" /\ Test.Elapsed tc = 0%Z.

(** [tc] is a Test of the key [k] that was made blank and then updated
    with [events], one after the other. *)
Definition folded_from (k : string) (events : list Entry.t) (tc : Test.t) : Prop :=
  exists t0, key_of t0 = k /\ blank t0 /\ tc = fold_left Update events t0.

(** What the tree holds under the key [k] after the events [rows]: the
    Test folded from the events of that key, or no Test when there was no
    such event and no Test below it needed it as an ancestor. *)
Definition holds_events (root : prefixNode) (rows : list Entry.t) (k : string) : Prop :=
  match Trie.find root k with
  | Some tc => folded_from k (events_for k rows) tc
  | None => events_for k rows = []
  end.

(* ===================================================================== *)
(** ** The walk in closed form *)
(* ===================================================================== *)

(** The Test that [walk] puts into a [NestedTest]: the Test of the node
    with its output emptied ([Output[:0]]). *)
Definition cleared (tc : Test.t) : Test.t := Test.with_Output tc [].

(** The result of a call that may answer not-ok, as the zero or one
    elements the caller's [append] adds. *)
Definition kept_child (o : option NestedTest) : list NestedTest :=
  match o with
  | Some k => [k]
  | None => []
  end.

(** The bytes that the walk of a subtree adds to the shared buffer when
    it is entered with the prefix [pre]: the fragments of the node, the
    result rows with [pre] in front, then the bytes of the children in
    their order, entered with one more indent.  A nil node adds nothing.
    (On a node without a Test [walk] panics and there is no buffer to
    speak of; the value there is of no account.) *)
Fixpoint written (pre : string) (node : prefixNode) {struct node} : string :=
  match node with
  | nil_node => ""
  | Node value children =>
      match value with
      | Some tc => concat_all (map (prefixed pre) (Test.Output tc))
      | None => ""
      end ++ concat_all (map (written (pre ++ whitespaceIndent)) children)
  end.

Section Nested.

Variable pdqsort : (string -> string -> bool) -> list string -> list string.

(** The [NestedTest] of a subtree entered with the prefix [pre], read off
    the tree alone, without a buffer: the cleared Test, the [NestedTest]s
    of the children that are not nil, and the log built from the bytes of
    the subtree. *)
Fixpoint nested (pre : string) (node : prefixNode) {struct node} : option NestedTest :=
  match node with
  | nil_node => None
  | Node None _ => None
  | Node (Some tc) children =>
      Some (mkNestedTest (cleared tc)
              (flat_map (fun c => kept_child (nested (pre ++ whitespaceIndent) c)) children)
              (build_log pdqsort (stringsSlice_of 0 (written pre node))))
  end.

End Nested.

(** Some node that a walk of the subtree comes to has no Test: the node
    itself, if it is not nil, or a node that the walk of a child with a
    Test comes to.  (The children of a node without a Test are not
    walked.) *)
Fixpoint lacks_Test (node : prefixNode) : bool :=
  match node with
  | nil_node => false
  | Node None _ => true
  | Node (Some _) children => existsb lacks_Test children
  end.

(** The Tests of a [NestedTest], parents before children, children in
    order. *)
Fixpoint nested_tests (tc : NestedTest) : list Test.t :=
  match tc with
  | mkNestedTest value kids _ => value :: flat_map nested_tests kids
  end.

(** The bytes that stripping with the limit [mx] takes out of the rows:
    four for each of the first [mx] indents of a row. *)
Definition removed (mx : Z) (rows : list string) : Z :=
  fold_right (fun row n => (4 * Z.min mx (Z.of_nat (indent_count row)) + n)%Z) 0%Z rows.

(** A stream of four lines: a test and its subtest, each with its verdict
    row, and a package-level event between them. *)
Definition nested_lines : list Line :=
  [mkLine (Entry.mk "output" "pkg" "TestA" 0 ("=== RUN   TestA" ++ NL)) None;
   mkLine (Entry.mk "output" "pkg" "TestA/Sub" 0 ("    --- PASS: TestA/Sub (0.00s)" ++ NL)) None;
   mkLine (Entry.mk "output" "pkg" "" 0 ("PASS" ++ NL)) None;
   mkLine (Entry.mk "output" "pkg" "TestA" 0 ("--- PASS: TestA (0.00s)" ++ NL)) None].

(** The context that is never cancelled. *)
Definition background : nat -> option string := fun _ => None.

(** The [Set] that [ReadAll] returns for [nested_lines]. *)
Definition nested_set : Set_ :=
  Eval vm_compute in
    match ReadAll sort.insertionSort background nested_lines with
    | ReadReturn result _ => result
    | ReadPanic => Set_zero
    end.

(** The [NestedTest]s of the top-level nodes of a tree, each of its own
    subtree with the empty prefix. *)
Definition top_level (pdqsort : (string -> string -> bool) -> list string -> list string)
  (root : prefixNode) : list NestedTest :=
  flat_map (fun c => kept_child (nested pdqsort "" c)) (children_of root).

(** The record that a failed decode leaves when only the field
    [Elapsed] has the wrong type: the decoder goes on and the other
    fields are set. *)
Definition half_decoded : Entry.t :=
  Entry.mk "output" "pkg" "TestA" 0 ("--- PASS: TestA (0.00s)" ++ NL).

(** The error of that decode. *)
Definition half_decoded_err : string :=
  "json: cannot unmarshal string into Go struct field Entry.Elapsed of type float64".

(* ===================================================================== *)
(** ** The wording of the spec, where it differs from the code *)
(* ===================================================================== *)

(** The rows as the spec orders them: the narrative rows, then the result
    rows by a stable sort that starts from their original order
    ([insertionSort_stable]). *)
Definition spec_stable_rows (rows : list string) : list string :=
  (narrative_rows rows ++ sort.insertionSort less_indent (result_rows rows))%list.

(** The log the spec's order gives, with the stripping of the code. *)
Definition spec_stable_log (rows : list string) : string :=
  concat_all
    (map (fun row => strings.Replace row whitespaceIndent "" (min_indent (result_rows rows)))
         (spec_stable_rows rows)).

(** Up to [n] leading indents taken off [s]: the stripping as the spec
    words it ("only leading indent units"). *)
Fixpoint strip_leading (n : nat) (s : string) : string :=
  match n with
  | 0 => s
  | S n' => if strings.HasPrefix s whitespaceIndent then strip_leading n' (drop 4 s) else s
  end.

(** The least number of indents among the result rows, as a count. *)
Definition spec_min_indent (results : list string) : nat :=
  match map indent_count results with
  | [] => 0
  | c :: cs => fold_right Nat.min c cs
  end.

(* ===================================================================== *)
(** ** Concrete inputs *)
(* ===================================================================== *)

(** A node with two result rows of the same number of indents. *)
Definition ties_node : prefixNode :=
  Node (Some (Test.mk "TestTies" "pkg" ["--- PASS: A" ++ NL; "--- FAIL: B" ++ NL] "" 0)) [].

(** A node with a narrative row that has an indent in its middle. *)
Definition interior_node : prefixNode :=
  Node (Some (Test.mk "TestInterior" "pkg" ["a    b" ++ NL; "    --- PASS: T" ++ NL] "" 0)) [].

(** A node all of whose output has one indent: a narrative row and the
    verdict row of a subtest. *)
Definition indented_node : prefixNode :=
  Node (Some (Test.mk "TestA/Sub" "pkg"
                ["    a_test.go:10: hello" ++ NL;
                 "    --- PASS: TestA/Sub (0.00s)" ++ NL] "pass" 0)) [].

(** The bytes that the walk of [indented_node] writes. *)
Definition indented_buf : string :=
  "    a_test.go:10: hello" ++ NL ++ "    --- PASS: TestA/Sub (0.00s)" ++ NL.

(** The [NestedTest] of [indented_node]: the indent is gone from both
    rows of its log. *)
Definition indented_tc : NestedTest :=
  mkNestedTest (Test.mk "TestA/Sub" "pkg" [] "pass" 0) []
    ("a_test.go:10: hello" ++ NL ++ "--- PASS: TestA/Sub (0.00s)" ++ NL).

(** A test with one subtest, with the output [go test] gives for them. *)
Definition sub_node : prefixNode :=
  Node (Some (Test.mk "TestA/Sub" "pkg"
                ["=== RUN   TestA/Sub" ++ NL; "    a_test.go:10: hello" ++ NL;
                 "    --- PASS: TestA/Sub (0.00s)" ++ NL] "pass" 0)) [].

(** The test above [sub_node]. *)
Definition parent_node : prefixNode :=
  Node (Some (Test.mk "TestA" "pkg"
                ["=== RUN   TestA" ++ NL; "--- PASS: TestA (0.00s)" ++ NL] "pass" 0))
       [sub_node].

(** The walk of [parent_node] from a fresh prefix log. *)
Definition parent_tc : NestedTest :=
  Eval vm_compute in
    match walk sort.insertionSort parent_node newPrefixLog "" with
    | Return tc _ _ _ => tc
    | Panic => NestedTest_zero
    end.

(** The buffer after the walk of [parent_node]. *)
Definition parent_buf : string :=
  Eval vm_compute in
    match walk sort.insertionSort parent_node newPrefixLog "" with
    | Return _ _ _ buf' => buf'
    | Panic => ""
    end.

(** A stream of one line. *)
Definition one_line : Line := mkLine (Entry.mk "run" "pkg" "TestA" 0 "") None.

(** A stream of three lines: an output event, a line that failed to decode
    and left nothing in its record, and the verdict of the test. *)
Definition three_lines : list Line :=
  [mkLine (Entry.mk "output" "pkg" "TestA" 0 ("--- PASS: TestA (0.00s)" ++ NL)) None;
   mkLine (Entry.mk "" "" "" 0 "") (Some "unexpected end of JSON input");
   mkLine (Entry.mk "pass" "pkg" "TestA" 0 "") None].

(* ===================================================================== *)
(** ** Facts about the string functions *)
(* ===================================================================== *)

Lemma append_nil_r (s : string) : s ++ "" = s.
Proof. induction s; simpl; congruence. Qed.

Lemma append_assoc (a b c : string) : (a ++ b) ++ c = a ++ b ++ c.
Proof. induction a; simpl; congruence. Qed.

Lemma length_append (a b : string) : String.length (a ++ b) = String.length a + String.length b.
Proof. induction a; simpl; congruence. Qed.

Lemma HasPrefix_spec (s p : string) :
  strings.HasPrefix s p = true <-> exists post, s = p ++ post.
Proof.
  revert s; induction p as [|a p IH]; intros s; simpl.
  - split; [intros _; now exists s | reflexivity].
  - destruct s as [|b s].
    + split; [discriminate | intros [post H]; discriminate].
    + rewrite andb_true_iff, Ascii.eqb_eq, IH. split.
      * intros [-> [post ->]]. now exists post.
      * intros [post H]. injection H as -> ->. split; [reflexivity | now exists post].
Qed.

Lemma Index_Some_split (s sub : string) (i : nat) :
  strings.Index s sub = Some i ->
  s = take i s ++ sub ++ drop (i + String.length sub) s /\ String.length (take i s) = i.
Proof.
  revert i; induction s as [|c s IH]; intros i; simpl.
  - destruct (strings.HasPrefix "" sub) eqn:E; [|discriminate].
    intros [= <-]. apply HasPrefix_spec in E as [post E].
    destruct sub; [|discriminate]. now simpl.
  - destruct (strings.HasPrefix (String c s) sub) eqn:E.
    + intros [= <-]. apply HasPrefix_spec in E as [post E]. simpl. split; [|reflexivity].
      rewrite E at 1. f_equal.
      assert (H : forall p q, drop (String.length p) (p ++ q) = q) by (induction p; simpl; auto).
      rewrite E. now rewrite H.
    + destruct (strings.Index s sub) as [j|] eqn:Ej; [|discriminate].
      intros [= <-]. destruct (IH j eq_refl) as [H1 H2]. simpl. split; [|now rewrite H2].
      now rewrite <- H1.
Qed.

Lemma Index_append (pre sub post : string) :
  strings.Index (pre ++ sub ++ post) sub <> None.
Proof.
  induction pre as [|c pre IH]; simpl.
  - assert (E : strings.HasPrefix (sub ++ post) sub = true)
      by (apply HasPrefix_spec; now exists post).
    destruct (sub ++ post); simpl in *; rewrite E; discriminate.
  - destruct (strings.HasPrefix (String c (pre ++ sub ++ post)) sub); [discriminate|].
    destruct (strings.Index (pre ++ sub ++ post) sub); [discriminate | contradiction].
Qed.

(** [strings.Contains] decides the substring relation. *)
Lemma Contains_spec (s sub : string) :
  strings.Contains s sub = true <-> substring_of sub s.
Proof.
  unfold strings.Contains, substring_of. split.
  - destruct (strings.Index s sub) as [i|] eqn:E; [|discriminate]. intros _.
    apply Index_Some_split in E as [E _]. eauto.
  - intros (pre & post & ->). pose proof (Index_append pre sub post) as H.
    destruct (strings.Index (pre ++ sub ++ post) sub); [reflexivity | contradiction].
Qed.

Lemma length_drop (n : nat) (s : string) :
  String.length (drop n s) = String.length s - n.
Proof. revert s; induction n; intros [|c s]; simpl; auto. Qed.

Lemma length_take (n : nat) (s : string) :
  String.length (take n s) = Nat.min n (String.length s).
Proof. revert s; induction n; intros [|c s]; simpl; auto. Qed.

Lemma drop_length_append (p q : string) : drop (String.length p) (p ++ q) = q.
Proof. induction p; simpl; auto. Qed.

Lemma take_length_append (p q : string) : take (String.length p) (p ++ q) = p.
Proof. induction p; simpl; congruence. Qed.

Lemma Index_cons (c : ascii) (r sub : string) :
  strings.Index (String c r) sub =
  if strings.HasPrefix (String c r) sub then Some 0
  else option_map S (strings.Index r sub).
Proof. reflexivity. Qed.

Lemma Index_None_HasPrefix (s sub : string) :
  strings.Index s sub = None -> strings.HasPrefix s sub = false.
Proof.
  destruct s; simpl; destruct (strings.HasPrefix _ sub); congruence.
Qed.

Lemma Index_Some_nonempty (s sub : string) (i : nat) :
  sub <> "" -> strings.Index s sub = Some i ->
  String.length (drop (i + String.length sub) s) < String.length s.
Proof.
  intros Hsub H. apply Index_Some_split in H as [H _].
  rewrite length_drop. apply (f_equal String.length) in H.
  rewrite !length_append in H. destruct sub; [contradiction|]. simpl in *. lia.
Qed.

(** The fuel of [strings.Count] is enough: more makes no difference. *)
Lemma count_loop_fuel (sub : string) (f1 f2 : nat) (s : string) :
  sub <> "" -> String.length s < f1 -> String.length s < f2 ->
  strings.count_loop f1 s sub = strings.count_loop f2 s sub.
Proof.
  intros Hsub. revert f2 s. induction f1 as [|f1 IH]; intros [|f2] s H1 H2; try lia.
  simpl. destruct (strings.Index s sub) as [i|] eqn:E; [|reflexivity].
  f_equal. pose proof (Index_Some_nonempty s Hsub E). apply IH; lia.
Qed.

(** One round of the loop of [strings.Count]. *)
Lemma Count_unfold (s sub : string) :
  sub <> "" ->
  strings.Count s sub =
  match strings.Index s sub with
  | None => 0
  | Some i => S (strings.Count (drop (i + String.length sub) s) sub)
  end.
Proof.
  intros Hsub. unfold strings.Count at 1. simpl.
  destruct (strings.Index s sub) as [i|] eqn:E; [|reflexivity].
  f_equal. pose proof (Index_Some_nonempty s Hsub E).
  apply count_loop_fuel; auto; lia.
Qed.

Lemma Count_0_Index (s sub : string) :
  sub <> "" -> strings.Count s sub = 0 -> strings.Index s sub = None.
Proof.
  intros Hsub. rewrite (Count_unfold s Hsub).
  destruct (strings.Index s sub); [discriminate | reflexivity].
Qed.

Lemma Index_None_Count (s sub : string) :
  sub <> "" -> strings.Index s sub = None -> strings.Count s sub = 0.
Proof. intros Hsub H. rewrite (Count_unfold s Hsub), H. reflexivity. Qed.

Lemma indent_nonempty : whitespaceIndent <> "".
Proof. discriminate. Qed.

Lemma HasPrefix_spaces_before_indent (p X rest : string) (k : nat) :
  k <= 4 ->
  strings.HasPrefix (p ++ X) (spaces k) = true ->
  strings.HasPrefix (p ++ whitespaceIndent ++ rest) (spaces k) = true.
Proof.
  revert k. induction p as [|c p IH]; intros k Hk H.
  - do 5 (destruct k as [|k]; [reflexivity|]). lia.
  - destruct k as [|k]; [reflexivity|]. simpl in *.
    apply andb_true_iff in H as [H1 H2]. rewrite H1. simpl. apply IH; [lia | exact H2].
Qed.

(** Taking an instance of the indent out joins no new instance: if the
    first instance in [pre ++ indent ++ rest] starts right after [pre] and
    [X] has none, then [pre ++ X] has none. *)
Lemma Index_None_glue (pre rest X : string) :
  strings.Index (pre ++ whitespaceIndent ++ rest) whitespaceIndent
    = Some (String.length pre) ->
  strings.Index X whitespaceIndent = None ->
  strings.Index (pre ++ X) whitespaceIndent = None.
Proof.
  induction pre as [|c pre IH]; intros H HX; [exact HX|].
  change ((String c pre) ++ X) with (String c (pre ++ X)).
  change ((String c pre) ++ whitespaceIndent ++ rest)
    with (String c (pre ++ whitespaceIndent ++ rest)) in H.
  rewrite Index_cons in *.
  destruct (strings.HasPrefix (String c (pre ++ whitespaceIndent ++ rest)) whitespaceIndent)
    eqn:E1; [discriminate|].
  destruct (strings.HasPrefix (String c (pre ++ X)) whitespaceIndent) eqn:E2.
  - pose proof (@HasPrefix_spaces_before_indent (String c pre) X rest 4 (le_n 4) E2) as E3.
    change (String c pre ++ whitespaceIndent ++ rest)
      with (String c (pre ++ whitespaceIndent ++ rest)) in E3.
    change (spaces 4) with whitespaceIndent in E3. congruence.
  - destruct (strings.Index (pre ++ whitespaceIndent ++ rest) whitespaceIndent) as [j|] eqn:Ej;
      [|discriminate].
    simpl in H. injection H as ->. rewrite (IH eq_refl HX). reflexivity.
Qed.

Lemma replace_all_clean (fuel : nat) (s : string) :
  String.length s < fuel ->
  strings.Index
    (strings.replace_loop (strings.Count s whitespaceIndent) s whitespaceIndent "")
    whitespaceIndent = None.
Proof.
  revert s. induction fuel as [|fuel IH]; intros s Hlen; [lia|].
  rewrite (Count_unfold s indent_nonempty).
  destruct (strings.Index s whitespaceIndent) as [i|] eqn:E.
  - simpl. rewrite E.
    pose proof (Index_Some_nonempty s indent_nonempty E) as Hshort.
    destruct (Index_Some_split _ _ E) as [Hs Hi].
    apply Index_None_glue with (rest := drop (i + String.length whitespaceIndent) s).
    + rewrite <- Hs, Hi. exact E.
    + apply IH. simpl in Hshort. lia.
  - simpl. exact E.
Qed.

(** With a limit that covers every instance, [strings.Replace] by the
    empty string leaves no instance of the indent. *)
Lemma Replace_all_no_indent (s : string) (n : Z) :
  (Z.of_nat (strings.Count s whitespaceIndent) <= n)%Z ->
  strings.Index (strings.Replace s whitespaceIndent "" n) whitespaceIndent = None.
Proof.
  intros Hn. unfold strings.Replace.
  change (String.eqb whitespaceIndent "") with false. simpl orb.
  destruct (Z.eqb_spec n 0) as [->|Hn0].
  - apply Count_0_Index; [exact indent_nonempty | lia].
  - destruct (Nat.eqb_spec (strings.Count s whitespaceIndent) 0) as [H0|H0].
    + apply Count_0_Index; [exact indent_nonempty | exact H0].
    + assert (E : (if ((n <? 0) || (Z.of_nat (strings.Count s whitespaceIndent) <? n))%Z
                   then strings.Count s whitespaceIndent else Z.to_nat n)
                  = strings.Count s whitespaceIndent).
      { destruct (Z.ltb_spec n 0); [lia|]. simpl.
        destruct (Z.ltb_spec (Z.of_nat (strings.Count s whitespaceIndent)) n); [reflexivity | lia]. }
      rewrite E. apply (replace_all_clean (fuel := S (String.length s))). lia.
Qed.

Lemma replace_loop_length (k : nat) (s : string) :
  k <= strings.Count s whitespaceIndent ->
  String.length (strings.replace_loop k s whitespaceIndent "") + 4 * k = String.length s.
Proof.
  revert s. induction k as [|k IH]; intros s Hk; [simpl; lia|].
  rewrite (Count_unfold s indent_nonempty) in Hk. simpl.
  destruct (strings.Index s whitespaceIndent) as [i|] eqn:E; [|lia].
  destruct (Index_Some_split _ _ E) as [Hs Hi].
  specialize (IH (drop (i + String.length whitespaceIndent) s) ltac:(lia)).
  apply (f_equal String.length) in Hs. rewrite !length_append, Hi in Hs.
  simpl in *. rewrite length_append, Hi. lia.
Qed.

(** [strings.Replace] of the indent by the empty string with limit [n]
    takes out [min n (Count s)] instances of four bytes each. *)
Lemma Replace_length (s : string) (n : Z) :
  (0 <= n)%Z ->
  (Z.of_nat (String.length (strings.Replace s whitespaceIndent "" n))
   + 4 * Z.min n (Z.of_nat (strings.Count s whitespaceIndent))
   = Z.of_nat (String.length s))%Z.
Proof.
  intros Hn. unfold strings.Replace.
  change (String.eqb whitespaceIndent "") with false. simpl orb.
  destruct (Z.eqb_spec n 0) as [->|Hn0]; [lia|].
  destruct (Nat.eqb_spec (strings.Count s whitespaceIndent) 0) as [H0|H0]; [lia|].
  destruct (Z.ltb_spec n 0); [lia|]. simpl orb.
  destruct (Z.ltb_spec (Z.of_nat (strings.Count s whitespaceIndent)) n).
  - pose proof (@replace_loop_length (strings.Count s whitespaceIndent) s (le_n _)). lia.
  - pose proof (@replace_loop_length (Z.to_nat n) s ltac:(lia)). lia.
Qed.

(* ===================================================================== *)
(** ** Facts about [sort.Slice] *)
(* ===================================================================== *)

Section SortFacts.

Variable key : string -> nat.

Lemma sink_perm (x : string) (sunk : list string) :
  Permutation (x :: sunk) (sort.sink (less_by key) x sunk).
Proof.
  induction sunk as [|y r IH]; simpl; [reflexivity|].
  destruct ((less_by key) x y); [|reflexivity].
  rewrite perm_swap. now constructor.
Qed.

Lemma sink_descending (x : string) (sunk : list string) :
  descending key sunk -> descending key (sort.sink (less_by key) x sunk).
Proof.
  unfold descending. induction sunk as [|y r IH]; intros H; simpl.
  - repeat constructor.
  - inversion H as [|? ? Hr Hy]; subst. unfold less_by at 1.
    destruct (Nat.ltb_spec (key x) (key y)) as [Hlt|Hge].
    + constructor; [now apply IH|].
      rewrite Forall_forall in *. intros z Hz.
      apply (Permutation_in z (Permutation_sym (sink_perm x r))) in Hz.
      destruct Hz as [<-|Hz]; [lia | now apply Hy].
    + constructor; [exact H|]. constructor; [exact Hge|].
      rewrite Forall_forall in *. intros z Hz. specialize (Hy z Hz). lia.
Qed.

(** [sink] keeps the rows of one key in their order, the new row first. *)
Lemma sink_filter (c : nat) (x : string) (sunk : list string) :
  filter (fun r => key r =? c)%nat (sort.sink (less_by key) x sunk)
  = filter (fun r => key r =? c)%nat (x :: sunk).
Proof.
  induction sunk as [|y r IH]; [reflexivity|].
  simpl sort.sink. unfold less_by at 1.
  destruct (Nat.ltb_spec (key x) (key y)) as [Hlt|Hge]; [|reflexivity].
  simpl in *. rewrite IH.
  destruct (Nat.eqb_spec (key x) c), (Nat.eqb_spec (key y) c); try reflexivity. lia.
Qed.

Lemma sunk_perm (data acc : list string) :
  Permutation (rev data ++ acc)%list
              (fold_left (fun sunk x => sort.sink (less_by key) x sunk) data acc).
Proof.
  revert acc. induction data as [|x r IH]; intros acc; simpl; [reflexivity|].
  rewrite <- IH, <- app_assoc. simpl.
  apply Permutation_app_head. apply sink_perm.
Qed.

Lemma sunk_descending (data acc : list string) :
  descending key acc ->
  descending key (fold_left (fun sunk x => sort.sink (less_by key) x sunk) data acc).
Proof.
  revert acc. induction data as [|x r IH]; intros acc H; simpl; [exact H|].
  apply IH. now apply sink_descending.
Qed.

Lemma sunk_filter (c : nat) (data acc : list string) :
  filter (fun r => key r =? c)%nat
         (fold_left (fun sunk x => sort.sink (less_by key) x sunk) data acc)
  = filter (fun r => key r =? c)%nat (rev data ++ acc)%list.
Proof.
  revert acc. induction data as [|x r IH]; intros acc; simpl; [reflexivity|].
  rewrite IH, <- app_assoc, !filter_app, sink_filter. simpl.
  destruct (key x =? c)%nat; reflexivity.
Qed.

Lemma descending_rev (l : list string) : descending key l -> ascending key (rev l).
Proof.
  unfold descending, ascending. induction l as [|x r IH]; intros H; simpl.
  - constructor.
  - inversion H as [|? ? Hr Hx]; subst.
    assert (G : forall l1 l2 : list string,
               StronglySorted (fun a b => key a <= key b) l1 ->
               StronglySorted (fun a b => key a <= key b) l2 ->
               (forall a b, In a l1 -> In b l2 -> key a <= key b) ->
               StronglySorted (fun a b => key a <= key b) (l1 ++ l2)%list).
    { induction l1 as [|a l1 IH1]; intros l2 H1 H2 H12; simpl; [exact H2|].
      inversion H1 as [|? ? Ha1 Ha2]; subst. constructor.
      - apply IH1; auto. intros; apply H12; simpl; auto.
      - rewrite Forall_forall in *. intros z Hz. apply in_app_or in Hz as [Hz|Hz].
        + now apply Ha2.
        + apply H12; simpl; auto. }
    apply G; [now apply IH | repeat constructor |].
    intros a b Ha [<-|[]]. rewrite Forall_forall in Hx. apply Hx.
    now apply in_rev.
Qed.

Lemma insertionSort_perm (data : list string) :
  Permutation data (sort.insertionSort (less_by key) data).
Proof.
  unfold sort.insertionSort. rewrite <- Permutation_rev, <- sunk_perm, app_nil_r.
  apply Permutation_rev.
Qed.

Lemma insertionSort_ascending (data : list string) :
  ascending key (sort.insertionSort (less_by key) data).
Proof.
  unfold sort.insertionSort. apply descending_rev, sunk_descending. constructor.
Qed.

(** Insertion sort is stable: the rows of one key keep their order. *)
Lemma insertionSort_stable (c : nat) (data : list string) :
  filter (fun r => key r =? c)%nat (sort.insertionSort (less_by key) data)
  = filter (fun r => key r =? c)%nat data.
Proof.
  unfold sort.insertionSort.
  rewrite filter_rev, sunk_filter, app_nil_r, filter_rev, rev_involutive. reflexivity.
Qed.

(** In a list ascending key by [key], a row of smaller key stands before
    every row of larger key. *)
Lemma ascending_before (l : list string) (x y : string) :
  ascending key l -> In x l -> In y l -> key x < key y ->
  exists a b c, l = (a ++ x :: b ++ y :: c)%list.
Proof.
  intros Hs Hx Hy Hlt. apply in_split in Hy as (p & q & ->).
  apply in_app_or in Hx as [Hx|Hx].
  - apply in_split in Hx as (a & b & ->). exists a, b, q. now rewrite <- app_assoc.
  - exfalso. destruct Hx as [->|Hx]; [lia|].
    assert (G : forall l1 l2 : list string, ascending key (l1 ++ l2)%list -> ascending key l2).
    { induction l1; simpl; auto. intros l2 H. inversion H; auto. }
    apply G in Hs. inversion Hs as [|? ? _ Hall]; subst.
    rewrite Forall_forall in Hall. specialize (Hall x Hx). lia.
Qed.

End SortFacts.

(* ===================================================================== *)
(** ** Facts about the pieces of [walk] *)
(* ===================================================================== *)

Lemma writeOutput_spec (pre : string) (output : list string) (buf : string) :
  writeOutput pre output buf
  = (map (prefixed pre) output, buf ++ concat_all (map (prefixed pre) output)).
Proof.
  revert buf. induction output as [|o rest IH]; intros buf; simpl.
  - now rewrite append_nil_r.
  - rewrite IH. fold (prefixed pre o). now rewrite append_assoc.
Qed.

Lemma TrimSuffix_append (p q : string) : strings.TrimSuffix (p ++ q) q = p.
Proof.
  unfold strings.TrimSuffix, strings.HasSuffix.
  rewrite length_append.
  replace (String.length p + String.length q - String.length q) with (String.length p) by lia.
  rewrite drop_length_append, String.eqb_refl, take_length_append.
  destruct (Nat.leb_spec (String.length q) (String.length p + String.length q)); [reflexivity | lia].
Qed.

Lemma decr_incrPrefix (pl : prefixLog) : decrPrefix (incrPrefix pl) = pl.
Proof.
  destruct pl as [p n]. unfold decrPrefix, incrPrefix. simpl.
  now rewrite TrimSuffix_append.
Qed.

Lemma mark_loop_spec (rows_rev kept mark : list string) (mx : Z) :
  mark_loop rows_rev kept mark mx
  = ((rev (narrative_rows rows_rev) ++ kept)%list,
     (mark ++ result_rows rows_rev)%list,
     fold_left (fun m r => Z.min (Z.of_nat (indent_count r)) m) (result_rows rows_rev) mx).
Proof.
  revert kept mark mx. induction rows_rev as [|row rest IH]; intros kept mark mx.
  - simpl. now rewrite app_nil_r.
  - unfold narrative_rows, result_rows in *. simpl.
    destruct (isResultActionRow row) eqn:E; simpl; rewrite IH.
    + rewrite <- app_assoc. simpl. do 2 f_equal. fold (indent_count row).
      destruct (Z.ltb_spec (Z.of_nat (indent_count row)) mx);
        [rewrite Z.min_l | rewrite Z.min_r]; auto; lia.
    + rewrite <- app_assoc. reflexivity.
Qed.

Section WalkFacts.

Variable pdqsort : (string -> string -> bool) -> list string -> list string.

(** The rows of the finished log: the narrative rows in their order, then
    the result rows, collected last row first, as [sort.Slice] leaves
    them; [mx] is the least number of indents among the result rows. *)
Lemma ordered_rows_spec (rows : list string) :
  ordered_rows pdqsort rows
  = ((narrative_rows rows ++ sort.Slice pdqsort less_indent (rev (result_rows rows)))%list,
     min_indent (result_rows rows)).
Proof.
  unfold ordered_rows. rewrite mark_loop_spec. simpl.
  unfold narrative_rows, result_rows, min_indent.
  rewrite !filter_rev, rev_involutive, app_nil_r. f_equal.
  rewrite <- fold_left_rev_right, rev_involutive. reflexivity.
Qed.

Lemma walk_Node (value : Test.t) (children : list prefixNode) (pl : prefixLog)
  (buf : string) :
  walk pdqsort (Node (Some value) children) pl buf =
  match walk_children (walk pdqsort) (incrPrefix pl) children
          (buf ++ concat_all (map (prefixed (prefix pl)) (Test.Output value))) [] with
  | None => Panic
  | Some (kids, buf2) =>
      Return (mkNestedTest (Test.with_Output value []) kids
                (build_log pdqsort (stringsSlice_of (pos pl) buf2)))
             true pl buf2
  end.
Proof.
  simpl. rewrite writeOutput_spec.
  change (fun nod p b => walk pdqsort nod p b) with (walk pdqsort).
  destruct (walk_children _ _ _ _ _) as [[kids buf2]|]; [|reflexivity].
  now rewrite decr_incrPrefix.
Qed.

(** [walk] leaves the caller's prefix log as it found it. *)
Lemma walk_keeps_prefixLog (node : prefixNode) (pl pl' : prefixLog) (buf buf' : string)
  (tc : NestedTest) (ok : bool) :
  walk pdqsort node pl buf = Return tc ok pl' buf' -> pl' = pl.
Proof.
  destruct node as [|[value|] children]; [now intros [= _ _ <- _] | | discriminate].
  rewrite walk_Node. destruct (walk_children _ _ _ _ _) as [[kids buf2]|]; [|discriminate].
  now intros [= _ _ <- _].
Qed.

(** [walk] answers ok exactly for a node that is not nil. *)
Lemma walk_ok (node : prefixNode) (pl pl' : prefixLog) (buf buf' : string)
  (tc : NestedTest) (ok : bool) :
  walk pdqsort node pl buf = Return tc ok pl' buf' ->
  ok = match node with nil_node => false | Node _ _ => true end.
Proof.
  destruct node as [|[value|] children]; [now intros [= _ <- _ _] | | discriminate].
  rewrite walk_Node. destruct (walk_children _ _ _ _ _) as [[kids buf2]|]; [|discriminate].
  now intros [= _ <- _ _].
Qed.

Lemma walk_children_extends (pl : prefixLog) (children : list prefixNode) :
  Forall (fun node => forall pl buf tc ok pl' buf',
            walk pdqsort node pl buf = Return tc ok pl' buf' ->
            exists d, buf' = buf ++ d) children ->
  forall buf acc kids buf',
    walk_children (walk pdqsort) pl children buf acc = Some (kids, buf') ->
    exists d, buf' = buf ++ d.
Proof.
  induction 1 as [|c rest Hc _ IH]; intros buf acc kids buf'; simpl.
  - intros [= _ <-]. exists "". now rewrite append_nil_r.
  - destruct (walk pdqsort c (copy pl buf) buf) as [|tc ok pl1 buf1] eqn:E; [discriminate|].
    intros H. apply Hc in E as [d1 ->]. apply IH in H as [d2 ->].
    exists (d1 ++ d2). now rewrite append_assoc.
Qed.

(** [walk] only appends to the shared buffer. *)
Lemma walk_extends (node : prefixNode) :
  forall pl buf tc ok pl' buf',
    walk pdqsort node pl buf = Return tc ok pl' buf' -> exists d, buf' = buf ++ d.
Proof.
  induction node as [|value children IH] using prefixNode_induction;
    intros pl buf tc ok pl' buf'.
  - intros [= _ _ _ <-]. exists "". now rewrite append_nil_r.
  - destruct value as [value|]; [|discriminate]. rewrite walk_Node.
    destruct (walk_children _ _ _ _ _) as [[kids buf2]|] eqn:E; [|discriminate].
    intros [= _ _ _ <-]. eapply walk_children_extends in E as [d ->]; [|exact IH].
    eexists. now rewrite append_assoc.
Qed.

Lemma walk_children_frame (children : list prefixNode) :
  Forall (fun node => forall pre b,
            walk pdqsort node (mkPrefixLog pre (String.length b)) b
            = at_end pre b (walk pdqsort node (mkPrefixLog pre 0) "")) children ->
  forall pl pl' b x acc,
    prefix pl = prefix pl' ->
    walk_children (walk pdqsort) pl children (b ++ x) acc
    = match walk_children (walk pdqsort) pl' children x acc with
      | None => None
      | Some (kids, d) => Some (kids, b ++ d)
      end.
Proof.
  induction 1 as [|c rest Hc _ IH]; intros pl pl' b x acc Hp; simpl; [reflexivity|].
  unfold copy. rewrite <- Hp, (Hc (prefix pl) (b ++ x)), (Hc (prefix pl) x).
  destruct (walk pdqsort c (mkPrefixLog (prefix pl) 0) "") as [|tc ok pl1 d]; simpl;
    [reflexivity|].
  rewrite append_assoc. now apply IH.
Qed.

Lemma walk_frame (node : prefixNode) :
  forall pre b,
    walk pdqsort node (mkPrefixLog pre (String.length b)) b
    = at_end pre b (walk pdqsort node (mkPrefixLog pre 0) "").
Proof.
  induction node as [|value children IH] using prefixNode_induction; intros pre b.
  - simpl. now rewrite append_nil_r.
  - destruct value as [value|]; [|reflexivity]. rewrite !walk_Node. simpl prefix.
    rewrite (@walk_children_frame children IH
               (incrPrefix (mkPrefixLog pre (String.length b)))
               (incrPrefix (mkPrefixLog pre 0)) b _ [] eq_refl).
    simpl append at 2.
    destruct (walk_children _ _ _ _ _) as [[kids d]|]; [|reflexivity].
    simpl. unfold stringsSlice_of. now rewrite drop_length_append.
Qed.

End WalkFacts.

(* ===================================================================== *)
(** ** Facts about the prefix tree *)
(* ===================================================================== *)

Lemma replace_first_app (key : string) (f : Test.t -> Test.t) (l1 l2 : list Test.t) :
  replace_first key f (l1 ++ l2)%list =
  match replace_first key f l1 with
  | Some l1' => Some (l1' ++ l2)%list
  | None => option_map (app l1) (replace_first key f l2)
  end.
Proof.
  induction l1 as [|a l1 IH]; simpl.
  - destruct (replace_first key f l2); reflexivity.
  - destruct (key_of a =? key)%string; [reflexivity|]. rewrite IH.
    destruct (replace_first key f l1); simpl; [reflexivity|].
    destruct (replace_first key f l2); reflexivity.
Qed.

Lemma tests_modify_first (key : string) (f : Test.t -> Test.t)
  (children : list prefixNode) :
  Forall (fun c => option_map Trie.tests (Trie.modify key f c)
                   = replace_first key f (Trie.tests c)) children ->
  option_map (flat_map Trie.tests) (Trie.modify_first (Trie.modify key f) children)
  = replace_first key f (flat_map Trie.tests children).
Proof.
  induction 1 as [|c rest Hc _ IH]; simpl; [reflexivity|].
  rewrite replace_first_app, <- Hc.
  destruct (Trie.modify key f c); simpl; [reflexivity|].
  rewrite <- IH. destruct (Trie.modify_first _ rest); reflexivity.
Qed.

(** [Trie.modify] changes the Test that [Trie.find] meets first. *)
Lemma tests_modify (key : string) (f : Test.t -> Test.t) (node : prefixNode) :
  option_map Trie.tests (Trie.modify key f node) = replace_first key f (Trie.tests node).
Proof.
  induction node as [|value children IH] using prefixNode_induction; [reflexivity|].
  simpl. change (fun c => Trie.modify key f c) with (Trie.modify key f).
  pose proof (@tests_modify_first key f children IH) as H.
  destruct value as [tc|]; simpl.
  - destruct (key_of tc =? key)%string; [reflexivity|]. rewrite <- H.
    destruct (Trie.modify_first _ children); reflexivity.
  - rewrite <- H. destruct (Trie.modify_first _ children); reflexivity.
Qed.

Lemma find_not_None (root : prefixNode) (key : string) :
  Trie.find root key <> None <->
  exists tc, In tc (Trie.tests root) /\ key_of tc = key.
Proof.
  unfold Trie.find. split.
  - destruct (List.find _ _) as [tc|] eqn:E; [intros _ | contradiction].
    apply find_some in E as [H1 H2]. apply String.eqb_eq in H2. eauto.
  - intros (tc & H1 & H2) E. apply (find_none _ _ E) in H1.
    apply String.eqb_neq in H1. contradiction.
Qed.

Lemma replace_first_found (key : string) (f : Test.t -> Test.t) (l : list Test.t)
  (tc : Test.t) :
  List.find (fun x => (key_of x =? key)%string) l = Some tc ->
  key_of (f tc) = key_of tc ->
  exists l', replace_first key f l = Some l'
             /\ List.find (fun x => (key_of x =? key)%string) l' = Some (f tc)
             /\ List.length l' = List.length l.
Proof.
  intros H Hf. induction l as [|a l IH]; simpl in *; [discriminate|].
  destruct (key_of a =? key)%string eqn:E.
  - injection H as ->. eexists. split; [reflexivity|]. simpl. now rewrite Hf, E.
  - destruct (IH H) as (l' & -> & H2 & H3). eexists. split; [reflexivity|].
    simpl. rewrite E. auto.
Qed.

Lemma replace_first_keys (key : string) (f : Test.t -> Test.t) (l l' : list Test.t) :
  (forall tc, key_of (f tc) = key_of tc) ->
  replace_first key f l = Some l' -> map key_of l' = map key_of l.
Proof.
  intros Hf. revert l'. induction l as [|a l IH]; intros l'; simpl; [discriminate|].
  destruct (key_of a =? key)%string.
  - intros [= <-]. simpl. now rewrite Hf.
  - destruct (replace_first key f l) as [l0|]; [|discriminate].
    intros [= <-]. simpl. now rewrite (IH l0 eq_refl).
Qed.

Lemma key_of_Update (tc : Test.t) (r : Entry.t) : key_of (Update tc r) = key_of tc.
Proof.
  unfold Update.
  destruct (Entry.Action r =? ActionOutput)%string; [reflexivity|].
  destruct (_ || _); reflexivity.
Qed.

(** A Test that [find] returns can be changed in place, and is then what
    [find] returns; no other Test changes. *)
Lemma modify_found (key : string) (f : Test.t -> Test.t) (root : prefixNode)
  (tc : Test.t) :
  Trie.find root key = Some tc ->
  key_of (f tc) = key_of tc ->
  exists root', Trie.modify key f root = Some root'
                /\ Trie.find root' key = Some (f tc)
                /\ replace_first key f (Trie.tests root) = Some (Trie.tests root').
Proof.
  intros H Hf. destruct (@replace_first_found key f _ tc H Hf) as (l' & H1 & H2 & _).
  pose proof (tests_modify key f root) as E. rewrite H1 in E.
  destruct (Trie.modify key f root) as [root'|]; [|discriminate].
  injection E as <-. exists root'. auto.
Qed.

Lemma modify_keeps (key : string) (f : Test.t -> Test.t) (root root' : prefixNode) :
  (forall tc, key_of (f tc) = key_of tc) ->
  Trie.modify key f root = Some root' ->
  forall k, Trie.find root k <> None -> Trie.find root' k <> None.
Proof.
  intros Hf H k. rewrite !find_not_None.
  pose proof (tests_modify key f root) as E. rewrite H in E. simpl in E. symmetry in E.
  apply (@replace_first_keys key f _ _ Hf) in E.
  intros (tc & H1 & H2). apply (in_map key_of) in H1. rewrite <- E in H1.
  apply in_map_iff in H1 as (tc' & H3 & H4). exists tc'. split; congruence.
Qed.

Lemma parents_shorter (done name n : string) :
  In n (Trie.parents_from done name) ->
  String.length n < String.length done + String.length name.
Proof.
  revert done. induction name as [|c name IH]; intros done; simpl; [contradiction|].
  destruct (Ascii.eqb c "/").
  - intros [<-|H]; [lia|]. apply IH in H. rewrite length_append in H. simpl in H. lia.
  - intros H. apply IH in H. rewrite length_append in H. simpl in H. lia.
Qed.

Lemma append_cancel (p a b : string) : p ++ a = p ++ b -> a = b.
Proof. induction p; simpl; [auto|]. intros [= H]. auto. Qed.

Lemma tests_add_child_first (parent : string) (tc : Test.t)
  (children : list prefixNode) :
  Forall (fun c => forall c', Trie.add_child parent tc c = Some c' ->
                              Permutation (tc :: Trie.tests c) (Trie.tests c')) children ->
  forall cs',
    Trie.modify_first (Trie.add_child parent tc) children = Some cs' ->
    Permutation (tc :: flat_map Trie.tests children) (flat_map Trie.tests cs').
Proof.
  induction 1 as [|c rest Hc _ IH]; intros cs'; simpl; [discriminate|].
  destruct (Trie.add_child parent tc c) as [c'|].
  - intros [= <-]. simpl. rewrite <- (Hc c' eq_refl). reflexivity.
  - destruct (Trie.modify_first _ rest) as [rest'|]; [|discriminate].
    intros [= <-]. simpl. rewrite <- (IH rest' eq_refl). apply Permutation_middle.
Qed.

(** [add_child] adds the Test and nothing else. *)
Lemma tests_add_child (parent : string) (tc : Test.t) (node : prefixNode) :
  forall node', Trie.add_child parent tc node = Some node' ->
                Permutation (tc :: Trie.tests node) (Trie.tests node').
Proof.
  induction node as [|value children IH] using prefixNode_induction; intros node';
    [discriminate|].
  simpl. change (fun c => Trie.add_child parent tc c) with (Trie.add_child parent tc).
  pose proof (@tests_add_child_first parent tc children IH) as H.
  destruct value as [v|].
  - destruct (key_of v =? parent)%string.
    + intros [= <-]. simpl. rewrite flat_map_app. simpl.
      apply (Permutation_cons_append (v :: flat_map Trie.tests children) tc).
    + destruct (Trie.modify_first _ children) as [cs'|]; [|discriminate].
      intros [= <-]. simpl. rewrite perm_swap. constructor. now apply H.
  - destruct (Trie.modify_first _ children) as [cs'|]; [|discriminate].
    intros [= <-]. simpl. now apply H.
Qed.

Lemma add_child_first_known (parent : string) (tc : Test.t)
  (children : list prefixNode) :
  Forall (fun c => (exists x, In x (Trie.tests c) /\ key_of x = parent) ->
                   Trie.add_child parent tc c <> None) children ->
  (exists x, In x (flat_map Trie.tests children) /\ key_of x = parent) ->
  Trie.modify_first (Trie.add_child parent tc) children <> None.
Proof.
  induction 1 as [|c rest Hc _ IH]; simpl; intros (x & Hx & Hk); [contradiction|].
  destruct (Trie.add_child parent tc c) as [c'|] eqn:E; [discriminate|].
  apply in_app_iff in Hx as [Hx|Hx].
  - exfalso. apply Hc; eauto.
  - destruct (Trie.modify_first _ rest); [discriminate|]. exfalso. apply IH; eauto.
Qed.

(** [add_child] finds the parent whenever [find] knows its key. *)
Lemma add_child_known (parent : string) (tc : Test.t) (node : prefixNode) :
  (exists x, In x (Trie.tests node) /\ key_of x = parent) ->
  Trie.add_child parent tc node <> None.
Proof.
  induction node as [|value children IH] using prefixNode_induction;
    intros (x & Hx & Hk); [contradiction|].
  simpl. change (fun c => Trie.add_child parent tc c) with (Trie.add_child parent tc).
  pose proof (@add_child_first_known parent tc children IH) as H.
  destruct value as [v|]; simpl in Hx.
  - destruct (key_of v =? parent)%string eqn:E; [discriminate|].
    destruct Hx as [<-|Hx]; [apply String.eqb_neq in E; contradiction|].
    destruct (Trie.modify_first _ children); [discriminate|].
    exfalso. apply (H (ex_intro _ x (conj Hx Hk))). reflexivity.
  - destruct (Trie.modify_first _ children); [discriminate|].
    exfalso. apply (H (ex_intro _ x (conj Hx Hk))). reflexivity.
Qed.

Lemma attach_root (parent : option string) (tc : Test.t) (children : list prefixNode) :
  exists children', Trie.attach parent tc (Node None children) = Node None children'.
Proof.
  destruct parent as [key|]; simpl; [|eauto].
  destruct (Trie.modify_first _ children); simpl; eauto.
Qed.

Lemma attach_perm (parent : option string) (tc : Test.t) (children : list prefixNode) :
  known_parent parent (Node None children) ->
  Permutation (tc :: Trie.tests (Node None children))
              (Trie.tests (Trie.attach parent tc (Node None children))).
Proof.
  destruct parent as [key|]; intros H.
  - unfold Trie.attach. simpl in H. apply find_not_None in H.
    pose proof (@add_child_known key tc (Node None children) H) as Hk.
    destruct (Trie.add_child key tc (Node None children)) as [root'|] eqn:E;
      [|contradiction].
    now apply tests_add_child in E.
  - simpl. rewrite flat_map_app. simpl.
    apply Permutation_cons_append.
Qed.

Lemma unique_keys_attach (parent : option string) (tc : Test.t)
  (children : list prefixNode) :
  known_parent parent (Node None children) ->
  Trie.find (Node None children) (key_of tc) = None ->
  unique_keys (Node None children) ->
  unique_keys (Trie.attach parent tc (Node None children)).
Proof.
  intros Hp Hf Hu. unfold unique_keys in *.
  apply (Permutation_NoDup (Permutation_map key_of (@attach_perm parent tc children Hp))).
  simpl. constructor; [|exact Hu].
  intros Hin. apply in_map_iff in Hin as (x & Hk & Hx).
  apply (find_none _ _ Hf) in Hx. apply String.eqb_neq in Hx. contradiction.
Qed.

(** What [ensure] does to the tree: it adds Tests for missing ancestors,
    each under a key no Test had, and leaves the innermost ancestor known. *)
Lemma ensure_spec (pkg : string) (ancestors : list string) :
  forall parent children,
    known_parent parent (Node None children) ->
    exists parent' children',
      Trie.ensure pkg ancestors parent (Node None children)
      = (parent', Node None children')
      /\ known_parent parent' (Node None children')
      /\ (unique_keys (Node None children) -> unique_keys (Node None children'))
      /\ (forall x, In x (Trie.tests (Node None children)) ->
                    In x (Trie.tests (Node None children')))
      /\ (forall x, In x (Trie.tests (Node None children')) ->
                    In x (Trie.tests (Node None children))
                    \/ exists name, In name ancestors /\ x = Test.mk name pkg [] "" 0).
Proof.
  induction ancestors as [|name rest IH]; intros parent children Hp.
  - exists parent, children. simpl. repeat split; auto.
  - cbn [Trie.ensure]. destruct (Trie.find (Node None children) (pkg ++ "/" ++ name)) eqn:F.
    + destruct (IH (Some (pkg ++ "/" ++ name)) children) as (p' & cs' & E & H1 & H2 & H3 & H4).
      { unfold known_parent. rewrite F. discriminate. }
      exists p', cs'. repeat split; auto.
      intros x Hx. destruct (H4 x Hx) as [H|(n & Hn & ->)]; [auto|].
      right. exists n. simpl. auto.
    + set (ph := Test.mk name pkg [] "" 0).
      destruct (attach_root parent ph children) as (cs1 & E1).
      pose proof (@attach_perm parent ph children Hp) as Hperm.
      pose proof (@unique_keys_attach parent ph children Hp F) as Hu.
      rewrite E1 in *.
      destruct (IH (Some (pkg ++ "/" ++ name)) cs1) as (p' & cs' & E & H1 & H2 & H3 & H4).
      { unfold known_parent. apply find_not_None. exists ph. split; [|reflexivity].
        apply (Permutation_in _ Hperm). simpl. auto. }
      exists p', cs'. repeat split; auto.
      * intros x Hx. apply H3. apply (Permutation_in _ Hperm). simpl. auto.
      * intros x Hx. destruct (H4 x Hx) as [H|(n & Hn & ->)].
        -- apply (Permutation_in _ (Permutation_sym Hperm)) in H.
           destruct H as [<-|H]; [|auto]. right. exists name. simpl. auto.
        -- right. exists n. simpl. auto.
Qed.

(** A Test inserted under a key that [find] did not know is what [find]
    returns for that key afterwards; the Tests that were there stay, and
    the keys stay unique. *)
Lemma insert_spec (children : list prefixNode) (obj : Test.t) :
  Trie.find (Node None children) (key_of obj) = None ->
  exists children',
    Trie.insert (Node None children) obj = Node None children'
    /\ Trie.find (Node None children') (key_of obj) = Some obj
    /\ (unique_keys (Node None children) -> unique_keys (Node None children'))
    /\ (forall x, In x (Trie.tests (Node None children)) ->
                  In x (Trie.tests (Node None children'))).
Proof.
  intros Hnone. unfold Trie.insert.
  destruct (@ensure_spec (Test.Package obj) (Trie.parents (Test.Name obj)) None children I)
    as (parent & cs1 & -> & Hp & Hu & Hincl & Horigin).
  assert (F : Trie.find (Node None cs1) (key_of obj) = None).
  { destruct (Trie.find (Node None cs1) (key_of obj)) as [tc|] eqn:E; [|reflexivity].
    exfalso. apply find_some in E as [H1 H2]. apply String.eqb_eq in H2.
    destruct (Horigin tc H1) as [H|(n & Hn & ->)].
    - apply (find_none _ _ Hnone) in H. apply String.eqb_neq in H. contradiction.
    - unfold key_of in H2. simpl in H2. apply append_cancel in H2.
      apply (@append_cancel "/") in H2. subst n.
      apply parents_shorter in Hn. simpl in Hn. lia. }
  rewrite F. destruct (attach_root parent obj cs1) as (cs2 & E2).
  pose proof (@attach_perm parent obj cs1 Hp) as Hperm.
  pose proof (@unique_keys_attach parent obj cs1 Hp F) as Hu2.
  rewrite E2 in *. exists cs2. split; [reflexivity|]. split; [|split].
  - unfold Trie.find. destruct (List.find _ (Trie.tests (Node None cs2))) as [tc|] eqn:E.
    + apply find_some in E as [H1 H2].
      apply (Permutation_in _ (Permutation_sym Hperm)) in H1.
      destruct H1 as [<-|H1]; [reflexivity|].
      apply (find_none _ _ F) in H1. congruence.
    + exfalso. assert (Hin : In obj (Trie.tests (Node None cs2)))
        by (apply (Permutation_in _ Hperm); simpl; auto).
      apply (find_none _ _ E) in Hin. apply String.eqb_neq in Hin. contradiction.
  - auto.
  - intros x Hx. apply (Permutation_in _ Hperm). simpl. auto.
Qed.

Lemma find_insert_new (children : list prefixNode) (obj : Test.t) :
  Trie.find (Node None children) (key_of obj) = None ->
  Trie.find (Trie.insert (Node None children) obj) (key_of obj) = Some obj.
Proof.
  intros H. destruct (@insert_spec children obj H) as (cs & -> & H1 & _). exact H1.
Qed.

Lemma insert_keeps (children : list prefixNode) (obj : Test.t) (k : string) :
  Trie.find (Node None children) (key_of obj) = None ->
  Trie.find (Node None children) k <> None ->
  Trie.find (Trie.insert (Node None children) obj) k <> None.
Proof.
  intros H. destruct (@insert_spec children obj H) as (cs & -> & _ & _ & Hincl).
  rewrite !find_not_None. intros (tc & H1 & H2). exists tc. auto.
Qed.

Lemma modify_unique (key : string) (f : Test.t -> Test.t) (root root' : prefixNode) :
  (forall tc, key_of (f tc) = key_of tc) ->
  Trie.modify key f root = Some root' ->
  unique_keys root -> unique_keys root'.
Proof.
  intros Hf H. unfold unique_keys.
  pose proof (tests_modify key f root) as E. rewrite H in E. simpl in E. symmetry in E.
  apply (@replace_first_keys key f _ _ Hf) in E. now rewrite E.
Qed.

(** With unique keys, exactly one Test has a key that [find] knows. *)
Lemma unique_keys_one (l : list Test.t) (key : string) :
  NoDup (map key_of l) ->
  (exists tc, In tc l /\ key_of tc = key) ->
  List.length (filter (fun x => (key_of x =? key)%string) l) = 1.
Proof.
  induction l as [|a l IH]; simpl; intros Hn (tc & Hin & Hk); [contradiction|].
  inversion Hn as [|? ? Hnotin Hn']; subst.
  destruct (String.eqb_spec (key_of a) (key_of tc)) as [E|E].
  - simpl. f_equal. apply length_zero_iff_nil.
    destruct (filter _ l) as [|x rest] eqn:F; [reflexivity|]. exfalso.
    assert (Hx : In x (filter (fun x => (key_of x =? key_of tc)%string) l))
      by (rewrite F; simpl; auto).
    apply filter_In in Hx as [Hx1 Hx2]. apply String.eqb_eq in Hx2.
    apply Hnotin. rewrite E, <- Hx2. now apply in_map.
  - destruct Hin as [->|Hin]; [contradiction|]. apply IH; eauto.
Qed.

(* ===================================================================== *)
(** ** Facts about the scanning loop *)
(* ===================================================================== *)

Lemma length_0_empty (s : string) : String.length s = 0 <-> s = "".
Proof. destruct s; simpl; split; congruence. Qed.

Lemma fold_row_no_name (r : Entry.t) (root : prefixNode) :
  Entry.TestName r = "" -> fold_row r root = root.
Proof. intros H. unfold fold_row. now rewrite H. Qed.

Lemma name_test (r : Entry.t) :
  Entry.TestName r <> "" -> (0 <? String.length (Entry.TestName r))%nat = true.
Proof.
  intros H. apply Nat.ltb_lt. destruct (Entry.TestName r); [contradiction | simpl; lia].
Qed.

Lemma modify_root (key : string) (f : Test.t -> Test.t) (children : list prefixNode)
  (root' : prefixNode) :
  Trie.modify key f (Node None children) = Some root' ->
  exists children', root' = Node None children'.
Proof.
  simpl. destruct (Trie.modify_first _ children) as [cs|]; [|discriminate].
  intros [= <-]. eauto.
Qed.

(** The root stays the node without a Test. *)
Lemma fold_row_root (r : Entry.t) (children : list prefixNode) :
  exists children', fold_row r (Node None children) = Node None children'.
Proof.
  unfold fold_row. destruct (0 <? _)%nat; [|eauto].
  destruct (Trie.find (Node None children)
              (Entry.Package r ++ "/" ++ Entry.TestName r)) eqn:F.
  - destruct (Trie.modify _ _ (Node None children)) as [root'|] eqn:E; [|eauto].
    now apply modify_root in E.
  - destruct (@insert_spec children (new_Test r) F) as (cs & E0 & _).
    fold (new_Test r). rewrite E0.
    destruct (Trie.modify _ _ (Node None cs)) as [root'|] eqn:E; [|eauto].
    now apply modify_root in E.
Qed.

Lemma run_root (rows : list Entry.t) (children : list prefixNode) :
  exists children', run rows (Node None children) = Node None children'.
Proof.
  revert children. induction rows as [|r rows IH]; intros children; simpl; [eauto|].
  destruct (fold_row_root r children) as (cs & ->). apply IH.
Qed.

(** An event of a key that [find] knows is folded into that Test. *)
Lemma fold_row_later (r : Entry.t) (root : prefixNode) (tc : Test.t) :
  Entry.TestName r <> "" ->
  Trie.find root (event_key r) = Some tc ->
  Trie.find (fold_row r root) (event_key r) = Some (Update tc r)
  /\ replace_first (event_key r) (fun x => Update x r) (Trie.tests root)
     = Some (Trie.tests (fold_row r root)).
Proof.
  intros Hn Hf. unfold fold_row. rewrite (name_test r Hn).
  fold (event_key r). rewrite Hf.
  destruct (@modify_found (event_key r) (fun x => Update x r) root tc Hf
              (key_of_Update tc r)) as (root' & -> & H2 & H3). auto.
Qed.

(** An event of a key that [find] does not know makes a Test of that
    key, and is folded into it. *)
Lemma fold_row_first (r : Entry.t) (children : list prefixNode) :
  Entry.TestName r <> "" ->
  Trie.find (Node None children) (event_key r) = None ->
  Trie.find (fold_row r (Node None children)) (event_key r)
  = Some (Update (new_Test r) r).
Proof.
  intros Hn Hf. unfold fold_row. rewrite (name_test r Hn).
  fold (event_key r). rewrite Hf. fold (new_Test r).
  pose proof (@find_insert_new children (new_Test r) Hf) as Hi.
  change (key_of (new_Test r)) with (event_key r) in Hi.
  destruct (@modify_found (event_key r) (fun x => Update x r) _ _ Hi
              (key_of_Update (new_Test r) r)) as (root' & -> & H2 & _). exact H2.
Qed.

(** No event makes [find] forget a key. *)
Lemma fold_row_keeps (r : Entry.t) (children : list prefixNode) (k : string) :
  Trie.find (Node None children) k <> None ->
  Trie.find (fold_row r (Node None children)) k <> None.
Proof.
  intros H. unfold fold_row. destruct (0 <? _)%nat; [|exact H].
  destruct (Trie.find (Node None children)
              (Entry.Package r ++ "/" ++ Entry.TestName r)) eqn:F.
  - destruct (Trie.modify _ _ (Node None children)) as [root'|] eqn:E; [|exact H].
    apply (@modify_keeps _ _ _ _ (fun x => key_of_Update x r) E). exact H.
  - pose proof (@insert_keeps children (new_Test r) k F H) as Hi.
    fold (new_Test r).
    destruct (Trie.modify _ _ (Trie.insert _ _)) as [root'|] eqn:E; [|exact Hi].
    apply (@modify_keeps _ _ _ _ (fun x => key_of_Update x r) E). exact Hi.
Qed.

Lemma run_keeps (rows : list Entry.t) (children : list prefixNode) (k : string) :
  Trie.find (Node None children) k <> None ->
  Trie.find (run rows (Node None children)) k <> None.
Proof.
  revert children. induction rows as [|r rows IH]; intros children H; simpl; [exact H|].
  pose proof (@fold_row_keeps r children k H) as H'.
  destruct (fold_row_root r children) as (cs & E). rewrite E in *. now apply IH.
Qed.

Lemma run_app (l1 l2 : list Entry.t) (root : prefixNode) :
  run (l1 ++ l2) root = run l2 (run l1 root).
Proof. apply fold_left_app. Qed.

(** The loop, when no round observes a cancelled context: every line is
    folded and every decode error recorded. *)
Lemma scan_loop_all (ctx : nat -> option string) (lines : list Line) :
  forall i errs root,
    (forall j, j < List.length lines -> ctx (i + j) = None) ->
    scan_loop ctx i lines errs root
    = inr ((errs ++ decode_errs lines)%list, run (map row lines) root).
Proof.
  induction lines as [|l rest IH]; intros i errs root H; simpl.
  - now rewrite app_nil_r.
  - pose proof (H 0 ltac:(simpl; lia)) as H0. rewrite Nat.add_0_r in H0. rewrite H0.
    rewrite IH.
    + unfold record_err. destruct (unmarshal_err l); simpl; [|reflexivity].
      now rewrite <- app_assoc.
    + intros j Hj. replace (S i + j) with (i + S j) by lia. apply H. simpl. lia.
Qed.

(** The loop, when a round observes a cancelled context: it ends there. *)
Lemma scan_loop_cancel (ctx : nat -> option string) (l1 : list Line) (l : Line)
  (l2 : list Line) (e : string) :
  forall i errs root,
    (forall j, j < List.length l1 -> ctx (i + j) = None) ->
    ctx (i + List.length l1) = Some e ->
    scan_loop ctx i (l1 ++ l :: l2) errs root = inl e.
Proof.
  induction l1 as [|a l1 IH]; intros i errs root H He; simpl in *.
  - rewrite Nat.add_0_r in He. now rewrite He.
  - pose proof (H 0 ltac:(lia)) as H0. rewrite Nat.add_0_r in H0. rewrite H0.
    apply IH.
    + intros j Hj. replace (S i + j) with (i + S j) by lia. apply H. lia.
    + replace (S i + List.length l1) with (i + S (List.length l1)) by lia. exact He.
Qed.

Lemma ReadAll_not_cancelled
  (pdqsort : (string -> string -> bool) -> list string -> list string)
  (ctx : nat -> option string) (lines : list Line) :
  (forall j, j < List.length lines -> ctx j = None) ->
  ReadAll pdqsort ctx lines
  = finish pdqsort (decode_errs lines) (run (map row lines) (Node None [])).
Proof.
  intros H. unfold ReadAll. rewrite scan_loop_all; [reflexivity | exact H].
Qed.

(* ===================================================================== *)
(** ** The finished log *)
(* ===================================================================== *)

Lemma min_indent_lower (l : list string) (r : string) :
  In r l -> (min_indent l <= Z.of_nat (indent_count r))%Z.
Proof.
  induction l as [|a l IH]; simpl; [contradiction|].
  intros [->|H]; [lia|]. specialize (IH H). lia.
Qed.

Lemma min_indent_cap (l : list string) : (min_indent l <= mx_init)%Z.
Proof. induction l as [|a l IH]; simpl; lia. Qed.

Lemma min_indent_attained (l : list string) :
  min_indent l = mx_init
  \/ exists r, In r l /\ min_indent l = Z.of_nat (indent_count r).
Proof.
  induction l as [|a l IH]; simpl; [auto|].
  destruct (Z.min_spec (Z.of_nat (indent_count a)) (min_indent l)) as [[_ ->]|[_ ->]].
  - right. exists a. auto.
  - destruct IH as [IH|(r & H1 & H2)]; [auto|]. right. exists r. auto.
Qed.

Lemma min_indent_ge (l : list string) (c : Z) :
  (c <= mx_init)%Z ->
  (forall r, In r l -> (c <= Z.of_nat (indent_count r))%Z) ->
  (c <= min_indent l)%Z.
Proof.
  intros Hc. induction l as [|a l IH]; simpl; intros H; [exact Hc|].
  apply Z.min_glb; [apply H; auto | apply IH; intros; apply H; auto].
Qed.

Section LogFacts.

Variable pdqsort : (string -> string -> bool) -> list string -> list string.

(** What the reader needs of the sort of long slices: the rows come back
    rearranged, in ascending order of their number of indents. *)
Hypothesis pdqsort_perm : forall l, Permutation l (pdqsort less_indent l).
Hypothesis pdqsort_ascending : forall l, ascending indent_count (pdqsort less_indent l).

Lemma Slice_perm (l : list string) : Permutation l (sort.Slice pdqsort less_indent l).
Proof.
  unfold sort.Slice. destruct (_ <=? 12)%nat; [|apply pdqsort_perm].
  exact (insertionSort_perm indent_count l).
Qed.

Lemma Slice_ascending (l : list string) :
  ascending indent_count (sort.Slice pdqsort less_indent l).
Proof.
  unfold sort.Slice. destruct (_ <=? 12)%nat; [|apply pdqsort_ascending].
  exact (insertionSort_ascending indent_count l).
Qed.

Lemma Slice_small_stable (l : list string) (c : nat) :
  List.length l <= 12 ->
  filter (fun r => indent_count r =? c)%nat (sort.Slice pdqsort less_indent l)
  = filter (fun r => indent_count r =? c)%nat l.
Proof.
  intros H. unfold sort.Slice. apply Nat.leb_le in H. rewrite H.
  exact (insertionSort_stable indent_count c l).
Qed.

Lemma walk_Log (node : prefixNode) (pl pl' : prefixLog) (buf buf' : string)
  (tc : NestedTest) :
  walk pdqsort node pl buf = Return tc true pl' buf' ->
  NestedTest_Log tc = build_log pdqsort (stringsSlice_of (pos pl) buf').
Proof.
  destruct node as [|[value|] children]; [discriminate | | discriminate].
  rewrite walk_Node. destruct (walk_children _ _ _ _ _) as [[kids buf2]|]; [|discriminate].
  now intros [= <- _ <-].
Qed.

(** C1: for every node walked, the finished log is made of the narrative
    rows of the node's slice in their original order, followed by its
    result rows in ascending order of their number of indents.  The
    result rows are collected last row first and sorted by [sort.Slice],
    which is not a stable sort: up to twelve result rows, rows of the same
    number of indents come out in the reverse of their original order.
    A result row with fewer indents stands before every result row with
    more, whatever their order in the buffer. *)
Theorem walk_log_order (node : prefixNode) (pl pl' : prefixLog) (buf buf' : string)
  (tc : NestedTest) :
  walk pdqsort node pl buf = Return tc true pl' buf' ->
  let rows := stringsSlice_of (pos pl) buf' in
  exists sorted,
    NestedTest_Log tc
    = concat_all
        (map (fun row => strings.Replace row whitespaceIndent ""
                           (min_indent (result_rows rows)))
             (narrative_rows rows ++ sorted)%list)
    /\ Permutation (result_rows rows) sorted
    /\ ascending indent_count sorted
    /\ (List.length (result_rows rows) <= 12 ->
        forall c, filter (fun r => indent_count r =? c)%nat sorted
                  = rev (filter (fun r => indent_count r =? c)%nat (result_rows rows)))
    /\ (forall shallow deep,
          In shallow (result_rows rows) -> In deep (result_rows rows) ->
          indent_count shallow < indent_count deep ->
          exists a b c, (narrative_rows rows ++ sorted
                         = a ++ shallow :: b ++ deep :: c)%list).
Proof.
  intros H rows. apply walk_Log in H. fold rows in H.
  unfold build_log in H. rewrite ordered_rows_spec in H.
  set (sorted := sort.Slice pdqsort less_indent (rev (result_rows rows))) in *.
  assert (Hperm : Permutation (result_rows rows) sorted).
  { unfold sorted. rewrite <- Slice_perm. apply Permutation_rev. }
  assert (Hasc : ascending indent_count sorted) by apply Slice_ascending.
  exists sorted. repeat split; auto.
  - intros Hlen c. unfold sorted. rewrite Slice_small_stable.
    + apply filter_rev.
    + now rewrite length_rev.
  - intros shallow deep Hs Hd Hlt.
    destruct (@ascending_before indent_count sorted shallow deep Hasc
                (Permutation_in _ Hperm Hs) (Permutation_in _ Hperm Hd) Hlt)
      as (a & b & c & E).
    exists (narrative_rows rows ++ a)%list, b, c. rewrite E. now rewrite <- app_assoc.
Qed.

(** C2: for every node that [walk] returns ok for, the finished log is
    the rows of the node (narrative rows, then sorted result rows), each
    with its first [mx] instances of the indent taken out wherever they
    stand in the row, leading or not, and concatenated; [mx] is the least
    number of indents among the result rows of the slice, capped by
    [1<<31 - 1], which is also its value when the slice has no result
    row.  A row loses [min mx (its number of indents)] indents, so a row
    with no more than [mx] indents loses them all.  The slice of a buffer
    that ends in a line feed has an empty last row, which has no indent:
    when every row but the empty ones has the same number [c] of indents
    ([c] within the cap), [mx] is at least [c], and is [c] when there is a
    result row; every indent is taken out of every row, and no row of the
    log holds an indent any more, in front or elsewhere. *)
Theorem walk_log_strip (node : prefixNode) (pl pl' : prefixLog) (buf buf' : string)
  (tc : NestedTest) :
  walk pdqsort node pl buf = Return tc true pl' buf' ->
  let rows := stringsSlice_of (pos pl) buf' in
  let ordered := fst (ordered_rows pdqsort rows) in
  let mx := min_indent (result_rows rows) in
  let strip := fun row => strings.Replace row whitespaceIndent "" mx in
  NestedTest_Log tc = concat_all (map strip ordered)
  /\ (forall row, In row ordered <-> In row rows)
  /\ (mx <= mx_init)%Z
  /\ (forall r, In r (result_rows rows) -> (mx <= Z.of_nat (indent_count r))%Z)
  /\ (mx = mx_init
      \/ exists r, In r (result_rows rows) /\ mx = Z.of_nat (indent_count r))
  /\ (forall row,
        (Z.of_nat (String.length (strip row))
         + 4 * Z.min mx (Z.of_nat (indent_count row))
         = Z.of_nat (String.length row))%Z)
  /\ (forall row,
        In row ordered -> (Z.of_nat (indent_count row) <= mx)%Z ->
        strings.Index (strip row) whitespaceIndent = None
        /\ strings.HasPrefix (strip row) whitespaceIndent = false
        /\ String.length (strip row) + 4 * indent_count row = String.length row)
  /\ (forall c,
        (Z.of_nat c <= mx_init)%Z ->
        (forall row, In row ordered -> row <> "" -> indent_count row = c) ->
        (Z.of_nat c <= mx)%Z
        /\ (result_rows rows <> [] -> mx = Z.of_nat c)
        /\ forall row, In row ordered ->
             strings.Index (strip row) whitespaceIndent = None
             /\ strings.HasPrefix (strip row) whitespaceIndent = false
             /\ String.length (strip row) + 4 * indent_count row = String.length row
             /\ (row <> "" -> String.length (strip row) + 4 * c = String.length row)).
Proof.
  intros H rows ordered mx strip. apply walk_Log in H. fold rows in H.
  assert (Hin : forall row, In row ordered <-> In row rows).
  { intros row. unfold ordered. rewrite ordered_rows_spec. simpl.
    assert (Hs : In row (sort.Slice pdqsort less_indent (rev (result_rows rows)))
                 <-> In row (result_rows rows)).
    { rewrite (in_rev (result_rows rows)). split; apply Permutation_in;
        [apply Permutation_sym|]; apply Slice_perm. }
    rewrite in_app_iff, Hs. unfold narrative_rows, result_rows. rewrite !filter_In.
    destruct (isResultActionRow row); simpl; intuition congruence. }
  assert (Hmx : (0 <= mx)%Z).
  { destruct (min_indent_attained (result_rows rows)) as [E|(r & _ & E)];
      fold mx in E; rewrite E; [unfold mx_init|]; lia. }
  assert (Hfull : forall row,
            In row ordered -> (Z.of_nat (indent_count row) <= mx)%Z ->
            strings.Index (strip row) whitespaceIndent = None
            /\ strings.HasPrefix (strip row) whitespaceIndent = false
            /\ String.length (strip row) + 4 * indent_count row = String.length row).
  { intros row _ Hle.
    pose proof (Replace_all_no_indent row Hle) as Hnone.
    split; [exact Hnone|]. split; [now apply Index_None_HasPrefix|].
    pose proof (@Replace_length row mx Hmx) as Hl. fold (indent_count row) in Hl.
    unfold strip. lia. }
  split; [|split; [exact Hin|split; [apply min_indent_cap|split;
    [intros r; apply min_indent_lower|split; [apply min_indent_attained|split;
    [|split; [exact Hfull|]]]]]]].
  - unfold build_log in H. unfold ordered, strip, mx.
    rewrite ordered_rows_spec in *. exact H.
  - intros row. apply Replace_length. exact Hmx.
  - intros c Hc Hall.
    assert (Hres : forall r, In r (result_rows rows) -> indent_count r = c).
    { intros r Hr. unfold result_rows in Hr. apply filter_In in Hr as [Hr Hres].
      apply Hall; [now apply Hin|]. intros ->. discriminate Hres. }
    assert (Hge : (Z.of_nat c <= mx)%Z).
    { apply min_indent_ge; [exact Hc|]. intros r Hr. rewrite (Hres r Hr). lia. }
    split; [exact Hge|]. split.
    + intros Hne. destruct (result_rows rows) as [|r0 rest] eqn:E; [contradiction|].
      pose proof (@min_indent_lower (r0 :: rest) r0 (or_introl eq_refl)) as Hlow.
      fold mx in Hlow. rewrite (Hres r0 (or_introl eq_refl)) in Hlow. lia.
    + intros row Hrow.
      assert (Hle : (Z.of_nat (indent_count row) <= mx)%Z).
      { destruct (String.eqb_spec row "") as [->|Hne]; [exact Hmx|].
        rewrite (Hall row Hrow Hne). exact Hge. }
      destruct (Hfull row Hrow Hle) as (H1 & H2 & H3).
      repeat split; auto. intros Hne. rewrite <- (Hall row Hrow Hne). exact H3.
Qed.

End LogFacts.

(** Insertion sort meets what [LogFacts] asks of the sort of long slices. *)
Lemma insertionSort_meets_perm (l : list string) :
  Permutation l (sort.insertionSort less_indent l).
Proof. exact (insertionSort_perm indent_count l). Qed.

Lemma insertionSort_meets_ascending (l : list string) :
  ascending indent_count (sort.insertionSort less_indent l).
Proof. exact (insertionSort_ascending indent_count l). Qed.

Lemma walk_parent_node
  (pdqsort : (string -> string -> bool) -> list string -> list string) :
  walk pdqsort parent_node newPrefixLog "" = Return parent_tc true newPrefixLog parent_buf.
Proof. vm_compute. reflexivity. Qed.

Lemma walk_ties_node
  (pdqsort : (string -> string -> bool) -> list string -> list string) :
  walk pdqsort ties_node newPrefixLog ""
  = Return (mkNestedTest (Test.mk "TestTies" "pkg" [] "" 0) []
              ("--- FAIL: B" ++ NL ++ "--- PASS: A" ++ NL))
           true newPrefixLog ("--- PASS: A" ++ NL ++ "--- FAIL: B" ++ NL).
Proof. vm_compute. reflexivity. Qed.

Lemma walk_indented_node
  (pdqsort : (string -> string -> bool) -> list string -> list string) :
  walk pdqsort indented_node newPrefixLog ""
  = Return indented_tc true newPrefixLog indented_buf.
Proof. vm_compute. reflexivity. Qed.

Lemma walk_interior_node
  (pdqsort : (string -> string -> bool) -> list string -> list string) :
  walk pdqsort interior_node newPrefixLog ""
  = Return (mkNestedTest (Test.mk "TestInterior" "pkg" [] "" 0) []
              ("ab" ++ NL ++ "--- PASS: T" ++ NL))
           true newPrefixLog ("a    b" ++ NL ++ "    --- PASS: T" ++ NL).
Proof. vm_compute. reflexivity. Qed.

(** [walk_log_order] at the walk of [parent_node], with insertion sort for
    the long slices. *)
Lemma walk_log_order_witness :
  walk sort.insertionSort parent_node newPrefixLog ""
  = Return parent_tc true newPrefixLog parent_buf
  /\ exists sorted,
       NestedTest_Log parent_tc
       = concat_all
           (map (fun row => strings.Replace row whitespaceIndent ""
                              (min_indent (result_rows (stringsSlice_of 0 parent_buf))))
                (narrative_rows (stringsSlice_of 0 parent_buf) ++ sorted)%list)
       /\ Permutation (result_rows (stringsSlice_of 0 parent_buf)) sorted
       /\ ascending indent_count sorted.
Proof.
  split; [apply walk_parent_node|].
  destruct (@walk_log_order sort.insertionSort insertionSort_meets_perm
              insertionSort_meets_ascending parent_node newPrefixLog newPrefixLog
              "" parent_buf parent_tc (walk_parent_node sort.insertionSort))
    as (sorted & H1 & H2 & H3 & _).
  exists sorted. auto.
Defined.

(** C1 as stated fails: the two result rows of [ties_node] have the same
    number of indents (none), "--- PASS: A" is written before
    "--- FAIL: B", and the finished log has "--- FAIL: B" first.  No log
    that [walk] returns for this node, whatever sorts the long slices, is
    the log with the ties in their original order. *)
Lemma walk_ties_not_in_original_order :
  ~ (exists pdqsort tc pl' buf',
       walk pdqsort ties_node newPrefixLog "" = Return tc true pl' buf'
       /\ NestedTest_Log tc = spec_stable_log (stringsSlice_of 0 buf')).
Proof.
  intros (pdqsort & tc & pl' & buf' & H & E).
  rewrite walk_ties_node in H. injection H as <- _ <-.
  vm_compute in E. discriminate E.
Qed.

(** [walk_log_strip] at the walk of [indented_node]: both rows of the
    node have one indent, the slice ends in a line feed and so has an
    empty last row, [mx] is one, and the indent is taken out of the
    narrative row as of the result row. *)
Lemma walk_log_strip_witness :
  walk sort.insertionSort indented_node newPrefixLog ""
  = Return indented_tc true newPrefixLog indented_buf
  /\ min_indent (result_rows (stringsSlice_of 0 indented_buf)) = 1%Z
  /\ strings.Index
       (strings.Replace ("    a_test.go:10: hello" ++ NL) whitespaceIndent ""
          (min_indent (result_rows (stringsSlice_of 0 indented_buf))))
       whitespaceIndent = None.
Proof.
  split; [apply walk_indented_node|].
  destruct (@walk_log_strip sort.insertionSort insertionSort_meets_perm
              indented_node newPrefixLog newPrefixLog "" indented_buf indented_tc
              (walk_indented_node sort.insertionSort))
    as (_ & _ & _ & _ & _ & _ & _ & Hcommon).
  destruct (Hcommon 1) as (_ & Hmx & Hrows).
  - vm_compute. discriminate.
  - intros row Hrow Hne. vm_compute in Hrow.
    destruct Hrow as [<-|[<-|[<-|[]]]]; [reflexivity | contradiction | reflexivity].
  - split; [apply Hmx; vm_compute; discriminate|].
    apply (Hrows ("    a_test.go:10: hello" ++ NL)). vm_compute. auto.
Defined.

(** C2 as stated fails: the narrative row "a    b" of [interior_node] has
    no leading indent, the least number of indents among the result rows
    is one, and the finished log holds "ab": the indent in the middle of
    the row was taken out.  With only leading indents stripped the log
    would hold "a    b". *)
Lemma walk_strips_interior_indent :
  ~ (exists pdqsort tc pl' buf',
       walk pdqsort interior_node newPrefixLog "" = Return tc true pl' buf'
       /\ NestedTest_Log tc
          = concat_all
              (map (strip_leading
                      (spec_min_indent (result_rows (stringsSlice_of 0 buf'))))
                   (fst (ordered_rows pdqsort (stringsSlice_of 0 buf'))))).
Proof.
  intros (pdqsort & tc & pl' & buf' & H & E).
  rewrite walk_interior_node in H. injection H as <- _ <-.
  vm_compute in E. discriminate E.
Qed.
(* ===================================================================== *)
(** ** C3 *)
(* ===================================================================== *)

(** C3: the classifier of [walk] deems [s] a result line exactly when [s]
    contains "---" and at least one of "FAIL", "PASS", "SKIP" as substrings,
    anywhere and in any order; every other string is a narrative line
    (the classifier answers [false]). *)
Theorem isResultActionRow_iff (s : string) :
  (isResultActionRow s = true <->
     substring_of "---" s /\
     (substring_of "FAIL" s \/ substring_of "PASS" s \/ substring_of "SKIP" s))
  /\ (isResultActionRow s = false <->
     ~ (substring_of "---" s /\
        (substring_of "FAIL" s \/ substring_of "PASS" s \/ substring_of "SKIP" s))).
Proof.
  assert (H : isResultActionRow s = true <->
     substring_of "---" s /\
     (substring_of "FAIL" s \/ substring_of "PASS" s \/ substring_of "SKIP" s)).
  { unfold isResultActionRow.
    change (strings.ToUpper ActionFail) with "FAIL".
    change (strings.ToUpper ActionPass) with "PASS".
    change (strings.ToUpper ActionSkip) with "SKIP".
    rewrite andb_true_iff, !orb_true_iff, !Contains_spec. tauto. }
  split; [exact H|].
  rewrite <- H. destruct (isResultActionRow s); split; congruence.
Qed.

(* ===================================================================== *)
(** ** C4, C5: the shared buffer and the prefix *)
(* ===================================================================== *)

Section WalkClaims.

Variable pdqsort : (string -> string -> bool) -> list string -> list string.

(** C4: in the walk of a node with a Test, every output fragment of the
    node is appended to the shared buffer in its original order, a result
    row with the prefix of the branch in front of it and a narrative
    fragment as it is; the children are walked on the buffer so extended,
    and only append to it. *)
Theorem walk_writes_fragments (value : Test.t) (children : list prefixNode)
  (pl pl' : prefixLog) (buf buf' : string) (tc : NestedTest) (ok : bool) :
  walk pdqsort (Node (Some value) children) pl buf = Return tc ok pl' buf' ->
  let own :=
    concat_all (map (fun o => if isResultActionRow o then prefix pl ++ o else o)
                    (Test.Output value)) in
  snd (writeOutput (prefix pl) (Test.Output value) buf) = buf ++ own
  /\ (exists kids,
        walk_children (walk pdqsort) (incrPrefix pl) children (buf ++ own) []
        = Some (kids, buf'))
  /\ (exists below, buf' = buf ++ own ++ below)
  /\ (children = [] -> buf' = buf ++ own).
Proof.
  intros H own. rewrite writeOutput_spec. split; [reflexivity|].
  rewrite walk_Node in H. fold own in H.
  change (concat_all (map (prefixed (prefix pl)) (Test.Output value))) with own in H.
  destruct (walk_children _ _ _ _ _) as [[kids buf2]|] eqn:E; [|discriminate].
  injection H as _ _ _ <-. split; [eauto|]. split.
  - eapply walk_children_extends in E as [d ->].
    + exists d. apply append_assoc.
    + apply Forall_forall. intros c _. apply walk_extends.
  - intros ->. simpl in E. now injection E as _ <-.
Qed.

(** C5: a call of [walk] that returns leaves the prefix log of its caller
    as it was at entry (the indent that [incrPrefix] adds before the
    children is taken off again by [decrPrefix]); the children are walked
    under the prefix with exactly one indent more; every child gets a
    copy with that prefix and the position set to the length of the
    buffer at that moment; and what a child returns and appends does not
    depend on the bytes in the buffer before that position. *)
Theorem walk_prefix_push_pop (node : prefixNode) (pl pl' : prefixLog)
  (buf buf' : string) (tc : NestedTest) (ok : bool) :
  walk pdqsort node pl buf = Return tc ok pl' buf' ->
  pl' = pl
  /\ prefix (incrPrefix pl) = prefix pl ++ whitespaceIndent
  /\ decrPrefix (incrPrefix pl) = pl
  /\ (forall value children,
        node = Node (Some value) children ->
        walk_children (walk pdqsort) (incrPrefix pl) children
          (snd (writeOutput (prefix pl) (Test.Output value) buf)) []
        = Some (NestedTest_Children tc, buf'))
  /\ (forall r nod rest b acc,
        walk_children (walk pdqsort) r (nod :: rest) b acc
        = match walk pdqsort nod (copy r b) b with
          | Panic => None
          | Return child ok' _ b' =>
              walk_children (walk pdqsort) r rest b'
                (if ok' then (acc ++ [child])%list else acc)
          end)
  /\ (forall r b, prefix (copy r b) = prefix r /\ pos (copy r b) = String.length b)
  /\ (forall nod r b,
        walk pdqsort nod (copy r b) b
        = at_end (prefix r) b (walk pdqsort nod (mkPrefixLog (prefix r) 0) "")).
Proof.
  intros H. split; [exact (@walk_keeps_prefixLog pdqsort node pl pl' buf buf' tc ok H)|].
  split; [reflexivity|]. split; [apply decr_incrPrefix|]. split.
  - intros value children ->. rewrite walk_Node in H. rewrite writeOutput_spec. simpl.
    destruct (walk_children _ _ _ _ _) as [[kids buf2]|]; [|discriminate].
    now injection H as <- _ _ <-.
  - split; [reflexivity|]. split; [now split|].
    intros nod r b. apply walk_frame.
Qed.

End WalkClaims.

(** [walk_writes_fragments] at the walk of [parent_node]. *)
Lemma walk_writes_fragments_witness :
  walk sort.insertionSort parent_node newPrefixLog ""
  = Return parent_tc true newPrefixLog parent_buf
  /\ exists below,
       parent_buf
       = "" ++ ("=== RUN   TestA" ++ NL ++ "--- PASS: TestA (0.00s)" ++ NL) ++ below.
Proof.
  split; [apply walk_parent_node|].
  exact (proj1 (proj2 (proj2
           (@walk_writes_fragments sort.insertionSort _ _ newPrefixLog newPrefixLog ""
              parent_buf parent_tc true (walk_parent_node sort.insertionSort))))).
Defined.

(** [walk_prefix_push_pop] at the walk of [parent_node]. *)
Lemma walk_prefix_push_pop_witness :
  walk sort.insertionSort parent_node newPrefixLog ""
  = Return parent_tc true newPrefixLog parent_buf
  /\ newPrefixLog = newPrefixLog
  /\ prefix (incrPrefix newPrefixLog) = "" ++ whitespaceIndent.
Proof.
  split; [apply walk_parent_node|].
  destruct (@walk_prefix_push_pop sort.insertionSort parent_node newPrefixLog
              newPrefixLog "" parent_buf parent_tc true
              (walk_parent_node sort.insertionSort)) as (H1 & H2 & _).
  split; [exact H1 | exact H2].
Defined.

(* ===================================================================== *)
(** ** C6, C8: the scanning loop *)
(* ===================================================================== *)

Lemma scan_loop_inr (ctx : nat -> option string) (lines : list Line) :
  forall i errs root es t,
    scan_loop ctx i lines errs root = inr (es, t) ->
    es = (errs ++ decode_errs lines)%list
    /\ t = run (map row lines) root
    /\ forall j, j < List.length lines -> ctx (i + j) = None.
Proof.
  induction lines as [|l rest IH]; intros i errs root es t; simpl.
  - intros [= <- <-]. rewrite app_nil_r. repeat split. intros j Hj. lia.
  - destruct (ctx i) eqn:E; [discriminate|]. intros H.
    apply IH in H as (-> & -> & H). repeat split.
    + unfold record_err. destruct (unmarshal_err l); simpl; [|reflexivity].
      now rewrite <- app_assoc.
    + intros [|j] Hj; [now rewrite Nat.add_0_r|].
      replace (i + S j) with (S i + j) by lia. apply H. lia.
Qed.

Lemma scan_loop_inl (ctx : nat -> option string) (lines : list Line) :
  forall i errs root e lines' errs' root',
    scan_loop ctx i lines errs root = inl e ->
    List.length lines' = List.length lines ->
    scan_loop ctx i lines' errs' root' = inl e.
Proof.
  induction lines as [|l rest IH]; intros i errs root e [|l' rest'] errs' root';
    simpl; try discriminate.
  destruct (ctx i); [auto|]. intros H [= Hlen]. eapply IH; eauto.
Qed.

Lemma scan_loop_ext (ctx ctx' : nat -> option string) (lines : list Line) :
  forall i errs root,
    (forall j, j < List.length lines -> ctx' (i + j) = ctx (i + j)) ->
    scan_loop ctx' i lines errs root = scan_loop ctx i lines errs root.
Proof.
  induction lines as [|l rest IH]; intros i errs root H; simpl; [reflexivity|].
  pose proof (H 0 ltac:(simpl; lia)) as H0. rewrite Nat.add_0_r in H0. rewrite H0.
  destruct (ctx i); [reflexivity|]. apply IH.
  intros j Hj. replace (S i + j) with (i + S j) by lia. apply H. simpl. lia.
Qed.

Lemma decode_errs_nil (lines : list Line) :
  errors.Join (decode_errs lines) = None
  <-> forall l, In l lines -> unmarshal_err l = None.
Proof.
  induction lines as [|a lines IH]; simpl.
  - split; [intros _ l [] | reflexivity].
  - destruct (unmarshal_err a) eqn:E; simpl.
    + split; [discriminate|]. intros H. specialize (H a (or_introl eq_refl)). congruence.
    + rewrite IH. split; [intros H l [<-|Hl]; auto | intros H l Hl; apply H; auto].
Qed.

Lemma ReadAll_empty_stream
  (pdqsort : (string -> string -> bool) -> list string -> list string)
  (ctx : nat -> option string) :
  ReadAll pdqsort ctx [] = ReadReturn (mkSet None []) None.
Proof. reflexivity. Qed.

(** No event makes two Tests of one key. *)
Lemma fold_row_unique (r : Entry.t) (children : list prefixNode) :
  unique_keys (Node None children) -> unique_keys (fold_row r (Node None children)).
Proof.
  intros H. unfold fold_row. destruct (0 <? _)%nat; [|exact H].
  destruct (Trie.find (Node None children)
              (Entry.Package r ++ "/" ++ Entry.TestName r)) eqn:F.
  - destruct (Trie.modify _ _ (Node None children)) as [root'|] eqn:E; [|exact H].
    apply (@modify_unique _ _ _ _ (fun x => key_of_Update x r) E). exact H.
  - destruct (@insert_spec children (new_Test r) F) as (cs & E0 & _ & Hu & _).
    fold (new_Test r). rewrite E0.
    destruct (Trie.modify _ _ (Node None cs)) as [root'|] eqn:E; [|auto].
    apply (@modify_unique _ _ _ _ (fun x => key_of_Update x r) E). auto.
Qed.

Lemma run_unique (rows : list Entry.t) (children : list prefixNode) :
  unique_keys (Node None children) -> unique_keys (run rows (Node None children)).
Proof.
  revert children. induction rows as [|r rows IH]; intros children H; simpl; [exact H|].
  pose proof (@fold_row_unique r children H) as H'.
  destruct (fold_row_root r children) as (cs & E). rewrite E in *. now apply IH.
Qed.

(** After an event with a test name, and whatever follows it, [find]
    knows the key of the event. *)
Lemma run_after_event (rows : list Entry.t) (r : Entry.t) (children : list prefixNode) :
  Entry.TestName r <> "" ->
  Trie.find (run rows (fold_row r (Node None children))) (event_key r) <> None.
Proof.
  intros Hn. destruct (fold_row_root r children) as (cs' & E).
  assert (H : Trie.find (fold_row r (Node None children)) (event_key r) <> None).
  { destruct (Trie.find (Node None children) (event_key r)) as [tc|] eqn:F.
    - destruct (@fold_row_later r _ tc Hn F) as [-> _]. discriminate.
    - rewrite (@fold_row_first r children Hn F). discriminate. }
  rewrite E in *. now apply run_keeps.
Qed.

(** C6: at every point of the scan no two Tests of the tree have the
    same key.  An event without a test name leaves the tree as it is.  An
    event with a test name is folded into the Test of its key,
    [package + "/" + name]: on the first sight of the key that Test is
    made and the event folded into it; later, the Test that is already
    there is updated in place, no other Test changes and none is made;
    either way the tree then holds exactly one Test of that key.  A key
    that [find] knows stays known, so after an event with a key every
    later event with that key is a later sight. *)
Theorem events_fold_into_one_Test (before : list Entry.t) (r : Entry.t) :
  let root := run before (Node None []) in
  let key := Entry.Package r ++ "/" ++ Entry.TestName r in
  NoDup (map key_of (Trie.tests root))
  /\ (Entry.TestName r = "" -> fold_row r root = root)
  /\ (Entry.TestName r <> "" ->
      (Trie.find root key = None ->
       Trie.find (fold_row r root) key = Some (Update (new_Test r) r))
      /\ (forall tc,
            Trie.find root key = Some tc ->
            Trie.find (fold_row r root) key = Some (Update tc r)
            /\ replace_first key (fun x => Update x r) (Trie.tests root)
               = Some (Trie.tests (fold_row r root)))
      /\ List.length (filter (fun x => (key_of x =? key)%string)
                             (Trie.tests (fold_row r root))) = 1
      /\ (forall later, Trie.find (run later (fold_row r root)) key <> None)
      /\ (forall earlier r0 mid,
            before = (earlier ++ r0 :: mid)%list ->
            Entry.TestName r0 <> "" ->
            Entry.Package r0 ++ "/" ++ Entry.TestName r0 = key ->
            Trie.find root key <> None)).
Proof.
  intros root key.
  assert (Hu : unique_keys root) by (apply run_unique; constructor).
  destruct (run_root before []) as (cs & Eroot). fold root in Eroot.
  split; [exact Hu|]. split; [apply fold_row_no_name|]. intros Hn.
  split; [|split; [|split; [|split]]].
  - rewrite Eroot. apply (@fold_row_first r cs Hn).
  - intros tc. apply (@fold_row_later r root tc Hn).
  - apply unique_keys_one.
    + rewrite Eroot in *. now apply fold_row_unique.
    + apply find_not_None. rewrite Eroot. apply (@run_after_event [] r cs Hn).
  - intros later. rewrite Eroot. apply (@run_after_event later r cs Hn).
  - intros earlier r0 mid -> Hn0 Hk. unfold root.
    rewrite run_app. simpl. destruct (run_root earlier []) as (cs0 & ->).
    fold (run mid (fold_row r0 (Node None cs0))). rewrite <- Hk.
    apply (@run_after_event mid r0 cs0 Hn0).
Qed.

(** C8: the cancellation signal is read once per scanned line, before
    the line is folded.  When the check of some line observes it
    cancelled, [ReadAll] returns the empty [Set] and the error of the
    context and nothing of the tree built so far; so it does for a stream
    of at least one line when the signal is cancelled from the start.
    When no check observes it cancelled, every line is folded completely.
    Nothing but these checks reads the signal: for the empty stream it is
    not read at all. *)
Theorem ReadAll_cancellation
  (pdqsort : (string -> string -> bool) -> list string -> list string)
  (ctx : nat -> option string) (lines : list Line) :
  (forall e, lines <> [] -> ctx 0 = Some e ->
             ReadAll pdqsort ctx lines = ReadReturn Set_zero (Some e))
  /\ (forall l1 l l2 e,
        lines = (l1 ++ l :: l2)%list ->
        (forall j, j < List.length l1 -> ctx j = None) ->
        ctx (List.length l1) = Some e ->
        ReadAll pdqsort ctx lines = ReadReturn Set_zero (Some e))
  /\ ((forall j, j < List.length lines -> ctx j = None) ->
      ReadAll pdqsort ctx lines
      = finish pdqsort (decode_errs lines) (run (map row lines) (Node None [])))
  /\ ((exists e, ReadAll pdqsort ctx lines = ReadReturn Set_zero (Some e))
      \/ ReadAll pdqsort ctx lines
         = finish pdqsort (decode_errs lines) (run (map row lines) (Node None [])))
  /\ (forall ctx',
        (forall j, j < List.length lines -> ctx' j = ctx j) ->
        ReadAll pdqsort ctx' lines = ReadAll pdqsort ctx lines).
Proof.
  assert (Hcancel : forall l1 l l2 e,
            lines = (l1 ++ l :: l2)%list ->
            (forall j, j < List.length l1 -> ctx j = None) ->
            ctx (List.length l1) = Some e ->
            ReadAll pdqsort ctx lines = ReadReturn Set_zero (Some e)).
  { intros l1 l l2 e -> H He. unfold ReadAll.
    rewrite (@scan_loop_cancel ctx l1 l l2 e 0 [] (Node None []) H He). reflexivity. }
  split; [|split; [exact Hcancel|split; [apply ReadAll_not_cancelled|split]]].
  - intros e Hne He. destruct lines as [|l rest]; [contradiction|].
    apply (Hcancel [] l rest e eq_refl); [intros j Hj; simpl in Hj; lia | exact He].
  - unfold ReadAll.
    destruct (scan_loop ctx 0 lines [] (Node None [])) as [e|[es t]] eqn:E.
    + left. eauto.
    + right. apply scan_loop_inr in E as (-> & -> & _). reflexivity.
  - intros ctx' H. unfold ReadAll. now rewrite (@scan_loop_ext ctx ctx' lines 0 [] _ H).
Qed.

(** [ReadAll_cancellation] at a stream of one line and a context that is
    cancelled from the start. *)
Lemma ReadAll_cancellation_witness :
  ReadAll sort.insertionSort (fun _ => Some "context canceled") [one_line]
  = ReadReturn Set_zero (Some "context canceled").
Proof.
  apply (proj1 (ReadAll_cancellation sort.insertionSort
                  (fun _ => Some "context canceled") [one_line]));
    [discriminate | reflexivity].
Defined.

(** C8 as stated fails for the empty stream: the loop has no round, the
    cancelled signal is never read, and [ReadAll] returns without an
    error. *)
Lemma ReadAll_cancelled_empty_stream :
  ~ (exists pdqsort e,
       ReadAll pdqsort (fun _ => Some "context canceled") []
       = ReadReturn Set_zero (Some e)).
Proof. intros (pdqsort & e & H). rewrite ReadAll_empty_stream in H. discriminate H. Qed.

(** Whatever the context does, the stream with a line whose decode
    failed and the stream with the same record decoded end alike: both
    cancelled at the same round, or both with the same Tests, and only the
    recorded error tells them apart. *)
Lemma failed_decode_same_result
  (pdqsort : (string -> string -> bool) -> list string -> list string)
  (ctx : nat -> option string) (l1 : list Line) (r : Entry.t) (e : string)
  (l2 : list Line) :
  match ReadAll pdqsort ctx (l1 ++ mkLine r (Some e) :: l2),
        ReadAll pdqsort ctx (l1 ++ mkLine r None :: l2) with
  | ReadPanic, ReadPanic => True
  | ReadReturn failed err1, ReadReturn decoded err2 =>
      Tests failed = Tests decoded /\ err1 = err2
      /\ (err1 = None ->
          Err failed = Some (decode_errs l1 ++ wrap_err e :: decode_errs l2)%list
          /\ Err decoded = errors.Join (decode_errs l1 ++ decode_errs l2)%list)
  | _, _ => False
  end
  /\ (forall i errs root,
        ctx i = None ->
        scan_loop ctx i (mkLine r (Some e) :: l2) errs root
        = scan_loop ctx (S i) l2 (errs ++ [wrap_err e])%list (fold_row r root)
        /\ scan_loop ctx i (mkLine r None :: l2) errs root
           = scan_loop ctx (S i) l2 errs (fold_row r root)).
Proof.
  split; [|intros i errs root H; simpl; rewrite H; auto].
  unfold ReadAll.
  destruct (scan_loop ctx 0 (l1 ++ mkLine r (Some e) :: l2) [] (Node None []))
    as [c|[es t]] eqn:E.
  - rewrite (@scan_loop_inl ctx _ 0 [] (Node None []) c
               (l1 ++ mkLine r None :: l2)%list [] (Node None []) E).
    + split; [reflexivity|]. split; [reflexivity|]. discriminate.
    + rewrite !length_app. reflexivity.
  - apply scan_loop_inr in E as (-> & -> & Hctx).
    rewrite scan_loop_all.
    + rewrite !map_app. simpl map.
      destruct (walk_top _ _ _) as [tcs|]; [|exact I]. simpl.
      repeat split; unfold decode_errs; rewrite flat_map_app; simpl.
      * destruct (flat_map _ l1); reflexivity.
      * reflexivity.
    + intros j Hj. apply Hctx. rewrite length_app in *. exact Hj.
Qed.

(** [events_fold_into_one_Test] at the second event of a test: the
    verdict is folded into the Test that holds the output. *)
Lemma events_fold_into_one_Test_witness :
  Trie.find
    (fold_row (Entry.mk "pass" "pkg" "TestA" 0 "")
       (run [Entry.mk "output" "pkg" "TestA" 0 "ok"] (Node None [])))
    "pkg/TestA"
  = Some (Test.mk "TestA" "pkg" ["ok"] "pass" 0).
Proof.
  refine (proj1 (proj1 (proj2 (proj2 (proj2
            (@events_fold_into_one_Test [Entry.mk "output" "pkg" "TestA" 0 "ok"]
               (Entry.mk "pass" "pkg" "TestA" 0 ""))) _))
            (Test.mk "TestA" "pkg" ["ok"] "" 0) _)).
  - discriminate.
  - reflexivity.
Defined.

(* ===================================================================== *)
(** ** Further properties of [walk] *)
(* ===================================================================== *)

Lemma Split_nonempty (s : string) (sep : ascii) : bytes.Split s sep <> [].
Proof.
  induction s as [|c s IH]; simpl; [discriminate|].
  destruct (Ascii.eqb c sep); [discriminate|].
  destruct (bytes.Split s sep); discriminate.
Qed.

Lemma update_last_cons (f : string -> string) (x : string) (l : list string) :
  l <> [] -> update_last f (x :: l) = x :: update_last f l.
Proof. destruct l; [contradiction | reflexivity]. Qed.

Lemma rows_of_split (s : string) :
  concat_all (update_last (fun r => strings.TrimSuffix r NL)
                (map (fun t => t ++ NL) (bytes.Split s LF))) = s.
Proof.
  induction s as [|c s IH]; [reflexivity|].
  pose proof (@Split_nonempty s LF) as Hne. simpl.
  destruct (Ascii.eqb_spec c LF) as [->|Hc].
  - simpl map. rewrite update_last_cons; [|now destruct (bytes.Split s LF)].
    simpl. now rewrite IH.
  - destruct (bytes.Split s LF) as [|piece rest]; [contradiction|].
    simpl map in *. destruct rest as [|r rest].
    + cbn [map update_last concat_all] in *.
      change (String c (piece ++ NL)) with (String c piece ++ NL).
      rewrite (TrimSuffix_append (String c piece) NL).
      rewrite TrimSuffix_append in IH. rewrite append_nil_r in *. now rewrite IH.
    + rewrite update_last_cons in *; try discriminate.
      simpl in *. f_equal. exact IH.
Qed.

(** X1: lines 159-167 lose nothing: the rows that [walk] cuts the slice into,
    put together again, are the bytes of the buffer from [pos] on. *)
Theorem stringsSlice_concat (p : nat) (buf : string) :
  concat_all (stringsSlice_of p buf) = drop p buf.
Proof. unfold stringsSlice_of. apply rows_of_split. Qed.

(** X2: [walk] only appends to the shared buffer: the bytes that were
    there at the call are still there, in place, at the return. *)
Theorem walk_appends_only
  (pdqsort : (string -> string -> bool) -> list string -> list string)
  (node : prefixNode) (pl pl' : prefixLog) (buf buf' : string) (tc : NestedTest)
  (ok : bool) :
  walk pdqsort node pl buf = Return tc ok pl' buf' ->
  exists appended, buf' = buf ++ appended.
Proof. apply walk_extends. Qed.

(** [walk_appends_only] at the walk of [parent_node]. *)
Lemma walk_appends_only_witness :
  exists appended, parent_buf = "" ++ appended.
Proof.
  exact (@walk_appends_only sort.insertionSort parent_node newPrefixLog newPrefixLog
           "" parent_buf parent_tc true (walk_parent_node sort.insertionSort)).
Defined.

(* ===================================================================== *)
(** ** [ReadAll] on the trees it builds *)
(* ===================================================================== *)

Lemma has_Tests_modify_first (m : prefixNode -> option prefixNode)
  (children : list prefixNode) :
  Forall (fun c => forall c', m c = Some c' -> has_Tests c = true -> has_Tests c' = true)
         children ->
  forall cs', Trie.modify_first m children = Some cs' ->
              forallb has_Tests children = true -> forallb has_Tests cs' = true.
Proof.
  induction 1 as [|c rest Hc _ IH]; intros cs'; simpl; [discriminate|].
  destruct (m c) as [c'|].
  - intros [= <-] H. apply andb_true_iff in H as [H1 H2]. simpl.
    now rewrite (Hc c' eq_refl H1), H2.
  - destruct (Trie.modify_first m rest) as [rest'|]; [|discriminate].
    intros [= <-] H. apply andb_true_iff in H as [H1 H2]. simpl.
    now rewrite H1, (IH rest' eq_refl H2).
Qed.

Lemma has_Tests_add_child (parent : string) (tc : Test.t) (node : prefixNode) :
  forall node', Trie.add_child parent tc node = Some node' ->
                has_Tests node = true -> has_Tests node' = true.
Proof.
  induction node as [|value children IH] using prefixNode_induction; intros node';
    [discriminate|].
  simpl. change (fun c => Trie.add_child parent tc c) with (Trie.add_child parent tc).
  pose proof (@has_Tests_modify_first (Trie.add_child parent tc) children IH) as H.
  destruct value as [v|]; [|discriminate]. simpl.
  destruct (key_of v =? parent)%string.
  - intros [= <-] Hc. simpl. now rewrite forallb_app, Hc.
  - destruct (Trie.modify_first _ children) as [cs'|]; [|discriminate].
    intros [= <-] Hc. simpl. now apply (H cs' eq_refl).
Qed.

Lemma has_Tests_modify (key : string) (f : Test.t -> Test.t) (node : prefixNode) :
  forall node', Trie.modify key f node = Some node' ->
                has_Tests node = true -> has_Tests node' = true.
Proof.
  induction node as [|value children IH] using prefixNode_induction; intros node';
    [discriminate|].
  simpl. change (fun c => Trie.modify key f c) with (Trie.modify key f).
  pose proof (@has_Tests_modify_first (Trie.modify key f) children IH) as H.
  destruct value as [v|]; [|discriminate]. simpl.
  destruct (key_of v =? key)%string.
  - now intros [= <-] Hc.
  - destruct (Trie.modify_first _ children) as [cs'|]; [|discriminate].
    intros [= <-] Hc. simpl. now apply (H cs' eq_refl).
Qed.

Lemma has_Tests_attach (parent : option string) (tc : Test.t)
  (children : list prefixNode) :
  forallb has_Tests children = true ->
  forallb has_Tests (children_of (Trie.attach parent tc (Node None children))) = true.
Proof.
  intros H. destruct parent as [key|]; simpl.
  - change (fun c => Trie.add_child key tc c) with (Trie.add_child key tc).
    destruct (Trie.modify_first _ children) as [cs'|] eqn:E; simpl; [|exact H].
    refine (@has_Tests_modify_first (Trie.add_child key tc) children _ cs' E H).
    apply Forall_forall. intros c _. apply has_Tests_add_child.
  - now rewrite forallb_app, H.
Qed.

Lemma has_Tests_ensure (pkg : string) (ancestors : list string) :
  forall parent children,
    forallb has_Tests children = true ->
    forallb has_Tests
      (children_of (snd (Trie.ensure pkg ancestors parent (Node None children)))) = true.
Proof.
  induction ancestors as [|name rest IH]; intros parent children H; [exact H|].
  cbn [Trie.ensure]. destruct (Trie.find _ _); [now apply IH|].
  destruct (attach_root parent (Test.mk name pkg [] "" 0) children) as (cs & E).
  pose proof (@has_Tests_attach parent (Test.mk name pkg [] "" 0) children H) as H'.
  rewrite E in *. now apply IH.
Qed.

Lemma has_Tests_insert (children : list prefixNode) (obj : Test.t) :
  forallb has_Tests children = true ->
  forallb has_Tests (children_of (Trie.insert (Node None children) obj)) = true.
Proof.
  intros H. unfold Trie.insert.
  pose proof (@has_Tests_ensure (Test.Package obj) (Trie.parents (Test.Name obj))
                None children H) as H1.
  destruct (@ensure_spec (Test.Package obj) (Trie.parents (Test.Name obj)) None children I)
    as (parent & cs1 & E & _).
  rewrite E in *. simpl in H1.
  destruct (Trie.find _ _); [exact H1|]. now apply has_Tests_attach.
Qed.

Lemma has_Tests_modify_root (key : string) (f : Test.t -> Test.t)
  (children : list prefixNode) (root' : prefixNode) :
  Trie.modify key f (Node None children) = Some root' ->
  forallb has_Tests children = true ->
  forallb has_Tests (children_of root') = true.
Proof.
  simpl. change (fun c => Trie.modify key f c) with (Trie.modify key f).
  destruct (Trie.modify_first _ children) as [cs'|] eqn:E; [|discriminate].
  intros [= <-] H. simpl.
  refine (@has_Tests_modify_first (Trie.modify key f) children _ cs' E H).
  apply Forall_forall. intros c _. apply has_Tests_modify.
Qed.

(** Every node the loop of [ReadAll] makes has a Test. *)
Lemma has_Tests_fold_row (r : Entry.t) (children : list prefixNode) :
  forallb has_Tests children = true ->
  forallb has_Tests (children_of (fold_row r (Node None children))) = true.
Proof.
  intros H. unfold fold_row. destruct (0 <? _)%nat; [|exact H].
  destruct (Trie.find (Node None children)
              (Entry.Package r ++ "/" ++ Entry.TestName r)) eqn:F.
  - destruct (Trie.modify _ _ (Node None children)) as [root'|] eqn:E; [|exact H].
    now apply (@has_Tests_modify_root _ _ _ _ E).
  - pose proof (@has_Tests_insert children (new_Test r) H) as Hi.
    destruct (@insert_spec children (new_Test r) F) as (cs & E0 & _).
    fold (new_Test r). rewrite E0 in *.
    destruct (Trie.modify _ _ (Node None cs)) as [root'|] eqn:E; [|exact Hi].
    now apply (@has_Tests_modify_root _ _ _ _ E).
Qed.

Lemma has_Tests_run (rows : list Entry.t) (children : list prefixNode) :
  forallb has_Tests children = true ->
  forallb has_Tests (children_of (run rows (Node None children))) = true.
Proof.
  revert children. induction rows as [|r rows IH]; intros children H; simpl; [exact H|].
  pose proof (@has_Tests_fold_row r children H) as H'.
  destruct (fold_row_root r children) as (cs & E). rewrite E in *. now apply IH.
Qed.

Section NoPanic.

Variable pdqsort : (string -> string -> bool) -> list string -> list string.

Lemma walk_children_returns (pl : prefixLog) (children : list prefixNode) :
  Forall (fun c => has_Tests c = true ->
                   forall pl buf, walk pdqsort c pl buf <> Panic) children ->
  forallb has_Tests children = true ->
  forall buf acc, walk_children (walk pdqsort) pl children buf acc <> None.
Proof.
  induction 1 as [|c rest Hc _ IH]; intros H buf acc; simpl; [discriminate|].
  simpl in H. apply andb_true_iff in H as [H1 H2].
  specialize (Hc H1 (copy pl buf) buf).
  destruct (walk pdqsort c (copy pl buf) buf); [contradiction|]. now apply IH.
Qed.

(** [walk] returns for a node all of whose nodes have Tests. *)
Lemma walk_returns (node : prefixNode) :
  has_Tests node = true -> forall pl buf, walk pdqsort node pl buf <> Panic.
Proof.
  induction node as [|value children IH] using prefixNode_induction;
    intros H pl buf; [discriminate|].
  destruct value as [value|]; [|discriminate]. simpl in H. rewrite walk_Node.
  pose proof (@walk_children_returns (incrPrefix pl) children IH H
                (buf ++ concat_all (map (prefixed (prefix pl)) (Test.Output value))) [])
    as Hc.
  destruct (walk_children _ _ _ _ _) as [[kids buf2]|]; [discriminate | contradiction].
Qed.

Lemma walk_top_returns (children : list prefixNode) :
  forallb has_Tests children = true ->
  forall acc, walk_top pdqsort children acc <> None.
Proof.
  induction children as [|c rest IH]; intros H acc; simpl; [discriminate|].
  simpl in H. apply andb_true_iff in H as [H1 H2].
  pose proof (@walk_returns c H1 newPrefixLog "") as Hc.
  destruct (walk pdqsort c newPrefixLog ""); [contradiction|]. now apply IH.
Qed.

(** X3: with the tree built by the loop of [ReadAll] (every node is made
    with a Test), no walk meets a nil pointer: [ReadAll] returns for every
    stream and every context. *)
Theorem ReadAll_returns (ctx : nat -> option string) (lines : list Line) :
  ReadAll pdqsort ctx lines <> ReadPanic.
Proof.
  unfold ReadAll.
  destruct (scan_loop ctx 0 lines [] (Node None [])) as [e|[errs root]] eqn:E;
    [discriminate|].
  apply scan_loop_inr in E as (_ & -> & _).
  pose proof (@has_Tests_run (map row lines) [] eq_refl) as H.
  pose proof (@walk_top_returns _ H []) as Hw.
  destruct (walk_top pdqsort _ []); [discriminate | contradiction].
Qed.

End NoPanic.

(* ===================================================================== *)
(** ** The walk as a function of the subtree *)
(* ===================================================================== *)

Lemma written_Node (pre : string) (value : Test.t) (children : list prefixNode) :
  written pre (Node (Some value) children)
  = concat_all (map (prefixed pre) (Test.Output value))
    ++ concat_all (map (written (pre ++ whitespaceIndent)) children).
Proof. reflexivity. Qed.

Section ClosedForm.

Variable pdqsort : (string -> string -> bool) -> list string -> list string.

Lemma nested_Node (pre : string) (value : Test.t) (children : list prefixNode) :
  nested pdqsort pre (Node (Some value) children)
  = Some (mkNestedTest (cleared value)
            (flat_map (fun c => kept_child (nested pdqsort (pre ++ whitespaceIndent) c))
                      children)
            (build_log pdqsort
               (stringsSlice_of 0 (written pre (Node (Some value) children))))).
Proof. reflexivity. Qed.

Lemma walk_children_written (pl : prefixLog) (children : list prefixNode) :
  Forall (fun c => forall pl buf tc ok pl' buf',
            walk pdqsort c pl buf = Return tc ok pl' buf' ->
            buf' = buf ++ written (prefix pl) c) children ->
  forall buf acc kids buf',
    walk_children (walk pdqsort) pl children buf acc = Some (kids, buf') ->
    buf' = buf ++ concat_all (map (written (prefix pl)) children).
Proof.
  induction 1 as [|c rest Hc _ IH]; intros buf acc kids buf'; simpl.
  - intros [= _ <-]. now rewrite append_nil_r.
  - destruct (walk pdqsort c (copy pl buf) buf) as [|tc ok pl1 buf1] eqn:E; [discriminate|].
    intros H. apply Hc in E. simpl in E. subst buf1. apply IH in H. rewrite H.
    now rewrite append_assoc.
Qed.

(** The buffer after a walk, in closed form. *)
Lemma walk_written (node : prefixNode) :
  forall pl buf tc ok pl' buf',
    walk pdqsort node pl buf = Return tc ok pl' buf' ->
    buf' = buf ++ written (prefix pl) node.
Proof.
  induction node as [|value children IH] using prefixNode_induction;
    intros pl buf tc ok pl' buf'.
  - intros [= _ _ _ <-]. simpl. now rewrite append_nil_r.
  - destruct value as [value|]; [|discriminate]. rewrite walk_Node, written_Node.
    destruct (walk_children _ _ _ _ _) as [[kids buf2]|] eqn:E; [|discriminate].
    intros [= _ _ _ <-]. apply (@walk_children_written _ _ IH) in E. rewrite E.
    now rewrite append_assoc.
Qed.

Lemma walk_children_nested (pl : prefixLog) (children : list prefixNode) :
  Forall (fun c => forall pl buf tc ok pl' buf',
            walk pdqsort c pl buf = Return tc ok pl' buf' ->
            pos pl = String.length buf ->
            nested pdqsort (prefix pl) c = if ok then Some tc else None) children ->
  forall buf acc kids buf',
    walk_children (walk pdqsort) pl children buf acc = Some (kids, buf') ->
    kids = (acc ++ flat_map (fun c => kept_child (nested pdqsort (prefix pl) c))
                            children)%list.
Proof.
  induction 1 as [|c rest Hc _ IH]; intros buf acc kids buf'; simpl.
  - intros [= <- _]. now rewrite app_nil_r.
  - destruct (walk pdqsort c (copy pl buf) buf) as [|tc ok pl1 buf1] eqn:E; [discriminate|].
    intros H. apply Hc in E; [|reflexivity]. simpl in E. rewrite E.
    apply IH in H. rewrite H. destruct ok; simpl; [|reflexivity].
    now rewrite <- app_assoc.
Qed.

(** The [NestedTest] of a walk that starts at the end of the buffer, in
    closed form. *)
Lemma walk_nested (node : prefixNode) :
  forall pl buf tc ok pl' buf',
    walk pdqsort node pl buf = Return tc ok pl' buf' ->
    pos pl = String.length buf ->
    nested pdqsort (prefix pl) node = if ok then Some tc else None.
Proof.
  induction node as [|value children IH] using prefixNode_induction;
    intros pl buf tc ok pl' buf' H Hpos.
  - injection H as _ <- _ _. reflexivity.
  - destruct value as [value|]; [|discriminate].
    pose proof (@walk_written _ _ _ _ _ _ _ H) as Hbuf.
    rewrite walk_Node in H. rewrite nested_Node.
    destruct (walk_children _ _ _ _ _) as [[kids buf2]|] eqn:E; [|discriminate].
    injection H as <- <- _ <-.
    apply (@walk_children_nested _ _ IH) in E. simpl in E. rewrite E. simpl app.
    unfold cleared, stringsSlice_of. rewrite Hbuf, Hpos, drop_length_append.
    reflexivity.
Qed.

Lemma walk_children_tests (pl : prefixLog) (children : list prefixNode) :
  Forall (fun c => forall pl buf tc ok pl' buf',
            walk pdqsort c pl buf = Return tc ok pl' buf' ->
            (if ok then nested_tests tc else []) = map cleared (Trie.tests c)) children ->
  forall buf acc kids buf',
    walk_children (walk pdqsort) pl children buf acc = Some (kids, buf') ->
    flat_map nested_tests kids
    = (flat_map nested_tests acc ++ map cleared (flat_map Trie.tests children))%list.
Proof.
  induction 1 as [|c rest Hc _ IH]; intros buf acc kids buf'; simpl.
  - intros [= <- _]. now rewrite app_nil_r.
  - destruct (walk pdqsort c (copy pl buf) buf) as [|tc ok pl1 buf1] eqn:E; [discriminate|].
    intros H. apply Hc in E. apply IH in H. rewrite H, map_app, <- E.
    destruct ok; [|reflexivity].
    rewrite flat_map_app. simpl. now rewrite app_nil_r, <- app_assoc.
Qed.

(** The Tests of the [NestedTest] a walk returns are the Tests of the
    subtree, cleared, in the order of the tree. *)
Lemma walk_tests (node : prefixNode) :
  forall pl buf tc ok pl' buf',
    walk pdqsort node pl buf = Return tc ok pl' buf' ->
    (if ok then nested_tests tc else []) = map cleared (Trie.tests node).
Proof.
  induction node as [|value children IH] using prefixNode_induction;
    intros pl buf tc ok pl' buf'.
  - intros [= _ <- _ _]. reflexivity.
  - destruct value as [value|]; [|discriminate]. rewrite walk_Node.
    destruct (walk_children _ _ _ _ _) as [[kids buf2]|] eqn:E; [|discriminate].
    intros [= <- <- _ _]. apply (@walk_children_tests _ _ IH) in E.
    simpl in *. now rewrite E.
Qed.

End ClosedForm.

Section TopLevel.

Variable pdqsort : (string -> string -> bool) -> list string -> list string.

(** Every top-level node is walked from a fresh prefix log and an empty
    buffer: its [NestedTest] is that of its own subtree. *)
Lemma walk_top_nested (children : list prefixNode) :
  forall acc tcs,
    walk_top pdqsort children acc = Some tcs ->
    tcs = (acc ++ flat_map (fun c => kept_child (nested pdqsort "" c)) children)%list.
Proof.
  induction children as [|c rest IH]; intros acc tcs; simpl.
  - intros [= <-]. now rewrite app_nil_r.
  - destruct (walk pdqsort c newPrefixLog "") as [|tc ok pl1 buf1] eqn:E; [discriminate|].
    intros H. apply walk_nested in E; [|reflexivity]. simpl in E. rewrite E.
    apply IH in H. rewrite H. destruct ok; simpl; [|reflexivity].
    now rewrite <- app_assoc.
Qed.

Lemma walk_top_tests (children : list prefixNode) :
  forall acc tcs,
    walk_top pdqsort children acc = Some tcs ->
    flat_map nested_tests tcs
    = (flat_map nested_tests acc ++ map cleared (flat_map Trie.tests children))%list.
Proof.
  induction children as [|c rest IH]; intros acc tcs; simpl.
  - intros [= <-]. now rewrite app_nil_r.
  - destruct (walk pdqsort c newPrefixLog "") as [|tc ok pl1 buf1] eqn:E; [discriminate|].
    intros H. apply walk_tests in E. apply IH in H. rewrite H, map_app, <- E.
    destruct ok; [|reflexivity].
    rewrite flat_map_app. simpl. now rewrite app_nil_r, <- app_assoc.
Qed.

(** A [ReadAll] that returns without an error has folded every line. *)
Lemma ReadAll_finished (ctx : nat -> option string) (lines : list Line) (result : Set_) :
  ReadAll pdqsort ctx lines = ReadReturn result None ->
  exists children,
    run (map row lines) (Node None []) = Node None children
    /\ walk_top pdqsort children [] = Some (Tests result)
    /\ Err result = errors.Join (decode_errs lines).
Proof.
  unfold ReadAll.
  destruct (scan_loop ctx 0 lines [] (Node None [])) as [e|[errs root]] eqn:E;
    [discriminate|].
  apply scan_loop_inr in E as (-> & -> & _).
  destruct (run_root (map row lines) []) as (cs & Hroot). rewrite Hroot. simpl.
  destruct (walk_top pdqsort cs []) as [tcs|] eqn:W; [|discriminate].
  intros [= <-]. exists cs. simpl. split; [reflexivity|]. split; [exact W | reflexivity].
Qed.

End TopLevel.

Lemma map_key_of_cleared (l : list Test.t) :
  map key_of (map cleared l) = map key_of l.
Proof. rewrite map_map. reflexivity. Qed.

Lemma ReadAll_nested_lines :
  ReadAll sort.insertionSort background nested_lines = ReadReturn nested_set None.
Proof. vm_compute. reflexivity. Qed.

(** X4: the shared buffer after a walk, in closed form.  A walk that
    returns has added to the buffer the fragments of the node (result
    rows with the prefix of the call in front), then, child after child
    in the order of [node.Children], the bytes of every subtree, written
    with one more indent in the prefix: the Tests of the subtree write
    parents before children, a Test at depth [d] below the node with [d]
    more indents in front of its result rows.  A nil node writes nothing.
    The bytes depend on the subtree and the prefix only, not on the
    buffer or the position of the call. *)
Theorem walk_buffer_preorder
  (pdqsort : (string -> string -> bool) -> list string -> list string)
  (node : prefixNode) (pl pl' : prefixLog) (buf buf' : string) (tc : NestedTest)
  (ok : bool) :
  walk pdqsort node pl buf = Return tc ok pl' buf' ->
  buf' = buf ++ written (prefix pl) node.
Proof. apply walk_written. Qed.

(** [walk_buffer_preorder] at the walk of [parent_node]. *)
Lemma walk_buffer_preorder_witness :
  parent_buf = "" ++ written (prefix newPrefixLog) parent_node.
Proof.
  exact (@walk_buffer_preorder sort.insertionSort parent_node newPrefixLog newPrefixLog
           "" parent_buf parent_tc true (walk_parent_node sort.insertionSort)).
Defined.

(** X5: a walk that is entered at the end of the buffer, as [copy] and
    [newPrefixLog] arrange for every call, computes a function of the
    subtree and the prefix alone.  The [NestedTest] it returns holds the
    Test of the node with its output emptied, one [NestedTest] for every
    child that is not nil, in the order of the children, each the one of
    the child's own subtree one indent deeper, and the log built from the
    bytes of the subtree: nothing of it depends on the siblings walked
    before or on what the buffer held.  It answers not-ok for the nil
    node only. *)
Theorem walk_is_function_of_subtree
  (pdqsort : (string -> string -> bool) -> list string -> list string)
  (node : prefixNode) (pl pl' : prefixLog) (buf buf' : string) (tc : NestedTest)
  (ok : bool) :
  walk pdqsort node pl buf = Return tc ok pl' buf' ->
  pos pl = String.length buf ->
  nested pdqsort (prefix pl) node = (if ok then Some tc else None)
  /\ (ok = false <-> node = nil_node).
Proof.
  intros H Hpos. split; [exact (@walk_nested _ _ _ _ _ _ _ _ H Hpos)|].
  rewrite (@walk_ok _ _ _ _ _ _ _ _ H). destruct node; split; congruence.
Qed.

(** [walk_is_function_of_subtree] at the walk of [parent_node]. *)
Lemma walk_is_function_of_subtree_witness :
  nested sort.insertionSort (prefix newPrefixLog) parent_node
  = (if true then Some parent_tc else None)
  /\ (true = false <-> parent_node = nil_node).
Proof.
  exact (@walk_is_function_of_subtree sort.insertionSort parent_node newPrefixLog
           newPrefixLog "" parent_buf parent_tc true
           (walk_parent_node sort.insertionSort) eq_refl).
Defined.

(** X6: a walk that returns ok loses no Test and invents none: the Tests
    of the returned [NestedTest] and of all its descendants, parents
    before children, are the Tests of the subtree in the same order, each
    with name, package, verdict and timing as they were and the output
    emptied.  A walk that answers not-ok was given a tree without Tests. *)
Theorem walk_keeps_every_Test
  (pdqsort : (string -> string -> bool) -> list string -> list string)
  (node : prefixNode) (pl pl' : prefixLog) (buf buf' : string) (tc : NestedTest)
  (ok : bool) :
  walk pdqsort node pl buf = Return tc ok pl' buf' ->
  (if ok then nested_tests tc else []) = map cleared (Trie.tests node).
Proof. apply walk_tests. Qed.

(** [walk_keeps_every_Test] at the walk of [parent_node]. *)
Lemma walk_keeps_every_Test_witness :
  (if true then nested_tests parent_tc else []) = map cleared (Trie.tests parent_node).
Proof.
  exact (@walk_keeps_every_Test sort.insertionSort parent_node newPrefixLog newPrefixLog
           "" parent_buf parent_tc true (walk_parent_node sort.insertionSort)).
Defined.

(** X7: the Tests of the [Set] that [ReadAll] returns without an error
    are, in the order of the top-level nodes of the tree, the
    [NestedTest] of each top-level subtree taken by itself with the empty
    prefix: every top-level node gets a prefix log and a buffer of its
    own, so no byte of one top-level test reaches the log of another.
    The error of the [Set] is the join of the decode errors. *)
Theorem ReadAll_top_level_tests
  (pdqsort : (string -> string -> bool) -> list string -> list string)
  (ctx : nat -> option string) (lines : list Line) (result : Set_) :
  ReadAll pdqsort ctx lines = ReadReturn result None ->
  Tests result
  = flat_map (fun c => kept_child (nested pdqsort "" c))
             (children_of (run (map row lines) (Node None [])))
  /\ Err result = errors.Join (decode_errs lines).
Proof.
  intros H. apply ReadAll_finished in H as (children & Hroot & W & He).
  rewrite Hroot. split; [|exact He]. exact (@walk_top_nested _ _ _ _ W).
Qed.

(** [ReadAll_top_level_tests] at the stream [nested_lines]. *)
Lemma ReadAll_top_level_tests_witness :
  Tests nested_set
  = flat_map (fun c => kept_child (nested sort.insertionSort "" c))
             (children_of (run (map row nested_lines) (Node None [])))
  /\ Err nested_set = errors.Join (decode_errs nested_lines).
Proof.
  exact (@ReadAll_top_level_tests sort.insertionSort background nested_lines nested_set
           ReadAll_nested_lines).
Defined.

(** X8: a [ReadAll] that returns without an error reports every Test of
    the tree once: the Tests of the returned [NestedTest]s and their
    descendants are the Tests of the tree in its order, with their output
    emptied; no two of them have the same package and name; and every
    line of the stream that has a test name has its Test among them.
    (That the keys of the tree are unique and that a named event is in it
    rest on [insert] and [find] as modelled from the spec.) *)
Theorem ReadAll_reports_every_Test
  (pdqsort : (string -> string -> bool) -> list string -> list string)
  (ctx : nat -> option string) (lines : list Line) (result : Set_) :
  ReadAll pdqsort ctx lines = ReadReturn result None ->
  let reported := flat_map nested_tests (Tests result) in
  reported = map cleared (Trie.tests (run (map row lines) (Node None [])))
  /\ NoDup (map key_of reported)
  /\ (forall l, In l lines -> Entry.TestName (row l) <> "" ->
        exists t, In t reported /\ key_of t = event_key (row l) /\ Test.Output t = []).
Proof.
  intros H reported. apply ReadAll_finished in H as (children & Hroot & W & _).
  assert (E : reported
              = map cleared (Trie.tests (run (map row lines) (Node None [])))).
  { unfold reported. rewrite Hroot. exact (@walk_top_tests _ _ _ _ W). }
  split; [exact E|]. rewrite E. split.
  - rewrite map_key_of_cleared. apply (@run_unique (map row lines) []). constructor.
  - intros l Hl Hn. apply in_split in Hl as (l1 & l2 & ->).
    rewrite map_app, run_app. simpl. destruct (run_root (map row l1) []) as (cs & ->).
    pose proof (@run_after_event (map row l2) (row l) cs Hn) as F.
    apply find_not_None in F as (t & Hin & Hk).
    exists (cleared t). split; [now apply in_map|]. split; [exact Hk | reflexivity].
Qed.

(** [ReadAll_reports_every_Test] at the stream [nested_lines]. *)
Lemma ReadAll_reports_every_Test_witness :
  flat_map nested_tests (Tests nested_set)
  = map cleared (Trie.tests (run (map row nested_lines) (Node None [])))
  /\ NoDup (map key_of (flat_map nested_tests (Tests nested_set))).
Proof.
  split.
  - exact (proj1 (@ReadAll_reports_every_Test sort.insertionSort background nested_lines
                    nested_set ReadAll_nested_lines)).
  - exact (proj1 (proj2 (@ReadAll_reports_every_Test sort.insertionSort background
                           nested_lines nested_set ReadAll_nested_lines))).
Defined.

(* ===================================================================== *)
(** ** What the log keeps of the slice *)
(* ===================================================================== *)

Lemma partition_perm (f : string -> bool) (l : list string) :
  Permutation l (filter (fun r => negb (f r)) l ++ filter f l)%list.
Proof.
  induction l as [|a l IH]; simpl; [constructor|].
  destruct (f a); simpl.
  - now apply Permutation_cons_app.
  - now constructor.
Qed.

Lemma removed_perm (mx : Z) (l l' : list string) :
  Permutation l l' -> removed mx l = removed mx l'.
Proof. unfold removed. induction 1; simpl in *; lia. Qed.

Lemma length_concat_perm (l l' : list string) :
  Permutation l l' -> String.length (concat_all l) = String.length (concat_all l').
Proof. induction 1; simpl; rewrite ?length_append; lia. Qed.

Lemma removed_nonneg (mx : Z) (l : list string) : (0 <= mx)%Z -> (0 <= removed mx l)%Z.
Proof. intros H. unfold removed. induction l as [|a l IH]; cbn [fold_right] in *; lia. Qed.

Lemma min_indent_nonneg (l : list string) : (0 <= min_indent l)%Z.
Proof. induction l as [|a l IH]; simpl; [unfold mx_init|]; lia. Qed.

(** Stripping takes [removed] bytes out of the rows and nothing else. *)
Lemma strip_length (mx : Z) (l : list string) :
  (0 <= mx)%Z ->
  (Z.of_nat (String.length
               (concat_all (map (fun row => strings.Replace row whitespaceIndent "" mx) l)))
   + removed mx l
   = Z.of_nat (String.length (concat_all l)))%Z.
Proof.
  intros H. unfold removed. induction l as [|a l IH]; [reflexivity|].
  cbn [fold_right map concat_all] in *.
  rewrite !length_append. pose proof (@Replace_length a mx H) as Ha.
  unfold indent_count in *. lia.
Qed.

Lemma ordered_rows_perm
  (pdqsort : (string -> string -> bool) -> list string -> list string)
  (rows : list string) :
  (forall l, Permutation l (pdqsort less_indent l)) ->
  Permutation rows (fst (ordered_rows pdqsort rows)).
Proof.
  intros Hperm. rewrite ordered_rows_spec. simpl.
  rewrite (partition_perm isResultActionRow rows) at 1.
  apply Permutation_app_head. fold (result_rows rows).
  rewrite <- (@Slice_perm pdqsort Hperm). apply Permutation_rev.
Qed.

(** X9: the log of a node is its slice of the buffer with the rows
    rearranged and indents taken out, and nothing else: the rows of the
    finished order are the rows of the slice, each as often as it stands
    there (the library sort of long slices is taken to rearrange only);
    the length of the log is the length of the slice less four bytes for
    each indent that the limit [mx] lets [strings.Replace] take out of a
    row; so the log is never longer than the slice. *)
Theorem walk_log_conserves
  (pdqsort : (string -> string -> bool) -> list string -> list string)
  (node : prefixNode) (pl pl' : prefixLog) (buf buf' : string) (tc : NestedTest) :
  (forall l, Permutation l (pdqsort less_indent l)) ->
  walk pdqsort node pl buf = Return tc true pl' buf' ->
  let rows := stringsSlice_of (pos pl) buf' in
  let mx := min_indent (result_rows rows) in
  Permutation rows (fst (ordered_rows pdqsort rows))
  /\ (Z.of_nat (String.length (NestedTest_Log tc)) + removed mx rows
      = Z.of_nat (String.length (drop (pos pl) buf')))%Z
  /\ String.length (NestedTest_Log tc) <= String.length (drop (pos pl) buf').
Proof.
  intros Hperm H rows mx.
  pose proof (@ordered_rows_perm pdqsort rows Hperm) as Hp.
  assert (Hlen : (Z.of_nat (String.length (NestedTest_Log tc)) + removed mx rows
                  = Z.of_nat (String.length (drop (pos pl) buf')))%Z).
  { apply walk_Log in H. fold rows in H. rewrite H. unfold build_log.
    destruct (ordered_rows pdqsort rows) as [ordered mx'] eqn:E.
    assert (Emx : mx' = mx).
    { rewrite ordered_rows_spec in E. now injection E as _ <-. }
    subst mx'. simpl in Hp.
    rewrite (removed_perm mx Hp), <- (rows_of_split (drop (pos pl) buf')).
    change (update_last _ _) with rows. rewrite (length_concat_perm Hp).
    apply strip_length. apply min_indent_nonneg. }
  split; [exact Hp|]. split; [exact Hlen|].
  pose proof (@removed_nonneg mx rows (min_indent_nonneg _)). lia.
Qed.

(** [walk_log_conserves] at the walk of [parent_node], with insertion
    sort for the sort of long slices. *)
Lemma walk_log_conserves_witness :
  String.length (NestedTest_Log parent_tc) <= String.length (drop 0 parent_buf).
Proof.
  exact (proj2 (proj2 (@walk_log_conserves sort.insertionSort parent_node newPrefixLog
                         newPrefixLog "" parent_buf parent_tc insertionSort_meets_perm
                         (walk_parent_node sort.insertionSort)))).
Defined.

(* ===================================================================== *)
(** ** The prefix of a branch *)
(* ===================================================================== *)

Lemma spaces_add (a b : nat) : spaces (a + b) = spaces a ++ spaces b.
Proof. induction a as [|a IH]; simpl; [reflexivity | now rewrite IH]. Qed.

(** X10: [incrPrefix] and [decrPrefix] keep a stack of indents: [n]
    increments put [4 * n] spaces behind the prefix and leave the
    position alone, [n] decrements after them give back the prefix log as
    it was, and a decrement without an increment before it, on the prefix
    log as [newPrefixLog] makes it, removes nothing. *)
Theorem prefix_is_a_stack (pl : prefixLog) (n : nat) :
  prefix (Nat.iter n incrPrefix pl) = prefix pl ++ spaces (4 * n)
  /\ pos (Nat.iter n incrPrefix pl) = pos pl
  /\ Nat.iter n decrPrefix (Nat.iter n incrPrefix pl) = pl
  /\ Nat.iter n decrPrefix newPrefixLog = newPrefixLog.
Proof.
  split; [|split; [|split]].
  - induction n as [|n IH]; simpl Nat.iter; [now rewrite append_nil_r|].
    unfold incrPrefix at 1. simpl prefix. rewrite IH, append_assoc.
    replace (4 * S n) with (4 * n + 4) by lia. now rewrite spaces_add.
  - induction n as [|n IH]; simpl; [reflexivity | exact IH].
  - revert pl. induction n as [|n IH]; intros pl; [reflexivity|].
    rewrite Nat.iter_succ_r. simpl Nat.iter. rewrite decr_incrPrefix. apply IH.
  - induction n as [|n IH]; simpl; [reflexivity|]. rewrite IH. reflexivity.
Qed.

(* ===================================================================== *)
(** ** When [walk] panics, and what it returns when it does not *)
(* ===================================================================== *)

Section Panics.

Variable pdqsort : (string -> string -> bool) -> list string -> list string.

Lemma walk_children_panics (pl : prefixLog) (children : list prefixNode) :
  Forall (fun c => forall pl buf, walk pdqsort c pl buf = Panic <-> lacks_Test c = true)
         children ->
  forall buf acc,
    walk_children (walk pdqsort) pl children buf acc = None
    <-> existsb lacks_Test children = true.
Proof.
  induction 1 as [|c rest Hc _ IH]; intros buf acc; simpl.
  - split; discriminate.
  - specialize (Hc (copy pl buf) buf).
    destruct (walk pdqsort c (copy pl buf) buf) as [|tc ok pl1 buf1].
    + rewrite (proj1 Hc eq_refl). split; reflexivity.
    + destruct (lacks_Test c); [discriminate (proj2 Hc eq_refl)|]. apply IH.
Qed.

Lemma walk_panics (node : prefixNode) :
  forall pl buf, walk pdqsort node pl buf = Panic <-> lacks_Test node = true.
Proof.
  induction node as [|value children IH] using prefixNode_induction; intros pl buf.
  - split; discriminate.
  - destruct value as [value|]; [|split; reflexivity]. rewrite walk_Node. simpl.
    rewrite <- (@walk_children_panics (incrPrefix pl) children IH
                  (buf ++ concat_all (map (prefixed (prefix pl)) (Test.Output value))) []).
    destruct (walk_children _ _ _ _ _) as [[kids buf2]|]; split;
      (reflexivity || discriminate).
Qed.

Lemma walk_top_panics (children : list prefixNode) :
  forall acc, walk_top pdqsort children acc = None
              <-> existsb lacks_Test children = true.
Proof.
  induction children as [|c rest IH]; intros acc; simpl.
  - split; discriminate.
  - pose proof (walk_panics c newPrefixLog "") as Hc.
    destruct (walk pdqsort c newPrefixLog "") as [|tc ok pl1 buf1].
    + rewrite (proj1 Hc eq_refl). split; reflexivity.
    + destruct (lacks_Test c); [discriminate (proj2 Hc eq_refl)|]. apply IH.
Qed.

(** X11: [walk] panics exactly on a tree in which it comes to a node
    without a Test: the node itself when it is not nil and its [Value] is
    nil, or such a node below it on a branch of nodes with Tests; a nil
    node anywhere is skipped and never makes a panic.  The prefix log and
    the buffer play no part in it.  The loop of [ReadAll] over the
    top-level nodes panics on the same condition. *)
Theorem walk_panics_iff (node : prefixNode) (pl : prefixLog) (buf : string)
  (children : list prefixNode) (acc : list NestedTest) :
  (walk pdqsort node pl buf = Panic <-> lacks_Test node = true)
  /\ (walk_top pdqsort children acc = None <-> existsb lacks_Test children = true).
Proof. split; [apply walk_panics | apply walk_top_panics]. Qed.

(** X12: the whole of [walk] in one equation, for a call at the end of
    the buffer (as every call of the code is): it panics on a tree with a
    reachable node without a Test; it answers not-ok for the nil node and
    leaves the buffer alone; for every other tree it returns ok with the
    [NestedTest] of the subtree, the prefix log of the caller as it was,
    and the buffer with the bytes of the subtree appended. *)
Theorem walk_equation (node : prefixNode) (pre : string) (buf : string) :
  walk pdqsort node (mkPrefixLog pre (String.length buf)) buf
  = if lacks_Test node then Panic
    else match nested pdqsort pre node with
         | Some tc => Return tc true (mkPrefixLog pre (String.length buf))
                             (buf ++ written pre node)
         | None => Return NestedTest_zero false (mkPrefixLog pre (String.length buf)) buf
         end.
Proof.
  destruct node as [|[value|] children]; [reflexivity | | reflexivity].
  set (node := Node (Some value) children).
  set (pl := mkPrefixLog pre (String.length buf)).
  pose proof (walk_panics node pl buf) as Hp.
  destruct (walk pdqsort node pl buf) as [|tc ok pl' buf'] eqn:E.
  - now rewrite (proj1 Hp eq_refl).
  - destruct (lacks_Test node); [discriminate (proj2 Hp eq_refl)|].
    pose proof (@walk_keeps_prefixLog _ _ _ _ _ _ _ _ E) as ->.
    pose proof (@walk_written _ _ _ _ _ _ _ _ E) as ->.
    pose proof (@walk_ok _ _ _ _ _ _ _ _ E) as Hok. simpl in Hok. subst ok.
    pose proof (@walk_nested _ _ _ _ _ _ _ _ E eq_refl) as Hn.
    change (prefix pl) with pre in *. now rewrite Hn.
Qed.

End Panics.

(* ===================================================================== *)
(** ** The error that [ReadAll] returns *)
(* ===================================================================== *)

(** The loop ends with an error exactly at the first round that observes
    the context cancelled. *)
Lemma scan_loop_error (ctx : nat -> option string) (lines : list Line) (e : string) :
  forall k errs root,
    scan_loop ctx k lines errs root = inl e
    <-> exists i, i < List.length lines /\ ctx (k + i) = Some e
                  /\ forall j, j < i -> ctx (k + j) = None.
Proof.
  induction lines as [|l rest IH]; intros k errs root; simpl.
  - split; [discriminate | intros (i & Hi & _); lia].
  - destruct (ctx k) as [e'|] eqn:E.
    + split.
      * intros [= ->]. exists 0. rewrite Nat.add_0_r. repeat split; [lia | exact E | lia].
      * intros (i & _ & He & Hj). destruct i as [|i].
        -- rewrite Nat.add_0_r in He. congruence.
        -- specialize (Hj 0 ltac:(lia)). rewrite Nat.add_0_r in Hj. congruence.
    + rewrite IH. split.
      * intros (i & Hi & He & Hj). exists (S i). split; [lia|].
        replace (k + S i) with (S k + i) by lia. split; [exact He|].
        intros [|j] Hlt; [now rewrite Nat.add_0_r|].
        replace (k + S j) with (S k + j) by lia. apply Hj. lia.
      * intros (i & Hi & He & Hj). destruct i as [|i].
        -- rewrite Nat.add_0_r in He. congruence.
        -- exists i. split; [lia|].
           replace (S k + i) with (k + S i) by lia. split; [exact He|].
           intros j Hlt. replace (S k + j) with (k + S j) by lia. apply Hj. lia.
Qed.

(** X13: the error that [ReadAll] returns is nil or the error of the
    context, never anything else: it is [e] exactly when some round of
    the loop, one per scanned line, is the first to observe the context
    cancelled and reads [e] from it; the [Set] returned with it is the
    empty one.  Decode errors never become the returned error: they go
    into [Set.Err]. *)
Theorem ReadAll_error_is_the_contexts
  (pdqsort : (string -> string -> bool) -> list string -> list string)
  (ctx : nat -> option string) (lines : list Line) (e : string) :
  ((exists result, ReadAll pdqsort ctx lines = ReadReturn result (Some e))
   <-> exists i, i < List.length lines /\ ctx i = Some e
                 /\ forall j, j < i -> ctx j = None)
  /\ (forall result, ReadAll pdqsort ctx lines = ReadReturn result (Some e) ->
                     result = Set_zero).
Proof.
  pose proof (@scan_loop_error ctx lines e 0 [] (Node None [])) as H. simpl in H.
  unfold ReadAll.
  destruct (scan_loop ctx 0 lines [] (Node None [])) as [e'|[errs root]] eqn:E.
  - split.
    + rewrite <- H. split; [intros (result & [= _ ->]); reflexivity|].
      intros [= ->]. now exists Set_zero.
    + now intros result [= <- _].
  - split.
    + rewrite <- H. split; [|discriminate].
      intros (result & Hr). destruct (walk_top pdqsort _ []); discriminate Hr.
    + intros result Hr. destruct (walk_top pdqsort _ []); discriminate Hr.
Qed.

(* ===================================================================== *)
(** ** C9: a node without a Test *)
(* ===================================================================== *)

Lemma has_Tests_lacks_none (node : prefixNode) :
  has_Tests node = true -> lacks_Test node = false.
Proof.
  induction node as [|value children IH] using prefixNode_induction; [discriminate|].
  destruct value as [value|]; [|discriminate]. simpl. revert IH.
  induction children as [|c rest IHrest]; intros IH H; [reflexivity|].
  simpl in *. apply andb_true_iff in H as [H1 H2].
  inversion IH as [|? ? Hc Hrest]; subst. rewrite (Hc H1). simpl. now apply IHrest.
Qed.

Lemma built_tree_lacks_none (rows : list Entry.t) :
  existsb lacks_Test (children_of (run rows (Node None []))) = false.
Proof.
  pose proof (@has_Tests_run rows [] eq_refl) as H.
  induction (children_of (run rows (Node None []))) as [|c rest IH]; [reflexivity|].
  simpl in *. apply andb_true_iff in H as [H1 H2].
  now rewrite (has_Tests_lacks_none c H1), (IH H2).
Qed.

(** C9: [walk] of the nil node returns not-ok and touches neither the
    buffer nor the prefix log, and both loops that call [walk] leave such
    a node out and go on.  A node that is not nil and has no Test is not
    guarded: line 106 dereferences its [Value], the walk panics, and so
    does every walk above it and the loop of [ReadAll]; [walk] panics on
    exactly the trees in which it comes to such a node.  No tree that the
    loop of [ReadAll] builds has one among the nodes it walks (the root,
    the one node without a Test, is not walked), so [ReadAll] returns for
    every stream. *)
Theorem walk_without_Test
  (pdqsort : (string -> string -> bool) -> list string -> list string)
  (children : list prefixNode) (pl : prefixLog) (buf : string)
  (ctx : nat -> option string) (lines : list Line) :
  walk pdqsort nil_node pl buf = Return NestedTest_zero false pl buf
  /\ (forall r rest b acc,
        walk_children (walk pdqsort) r (nil_node :: rest) b acc
        = walk_children (walk pdqsort) r rest b acc)
  /\ (forall rest acc,
        walk_top pdqsort (nil_node :: rest) acc = walk_top pdqsort rest acc)
  /\ walk pdqsort (Node None children) pl buf = Panic
  /\ (forall r rest b acc,
        walk_children (walk pdqsort) r (Node None children :: rest) b acc = None)
  /\ (forall rest acc, walk_top pdqsort (Node None children :: rest) acc = None)
  /\ (forall node, walk pdqsort node pl buf = Panic <-> lacks_Test node = true)
  /\ (forall top acc, walk_top pdqsort top acc = None <-> existsb lacks_Test top = true)
  /\ existsb lacks_Test (children_of (run (map row lines) (Node None []))) = false
  /\ ReadAll pdqsort ctx lines <> ReadPanic.
Proof.
  do 6 (split; [reflexivity|]).
  split; [intros node; apply walk_panics|].
  split; [intros top acc; apply walk_top_panics|].
  split; [apply built_tree_lacks_none|].
  unfold ReadAll.
  destruct (scan_loop ctx 0 lines [] (Node None [])) as [e|[errs root]] eqn:E;
    [discriminate|].
  apply scan_loop_inr in E as (_ & -> & _).
  pose proof (built_tree_lacks_none (map row lines)) as H.
  destruct (walk_top pdqsort _ []) as [tcs|] eqn:W; [discriminate|].
  apply walk_top_panics in W. congruence.
Qed.

(** C9 as stated fails for the node that is there but has no Test: its
    walk does not return not-ok, it does not return at all. *)
Lemma walk_nil_Test_is_not_skipped :
  ~ (exists pdqsort tc pl' buf',
       walk pdqsort (Node None []) newPrefixLog "" = Return tc false pl' buf').
Proof. intros (pdqsort & tc & pl' & buf' & H). discriminate H. Qed.

(* ===================================================================== *)
(** ** What the loop folds into a Test *)
(* ===================================================================== *)

Lemma Output_Update (tc : Test.t) (r : Entry.t) :
  Test.Output (Update tc r)
  = (Test.Output tc
     ++ if (Entry.Action r =? ActionOutput)%string then [Entry.Output r] else [])%list.
Proof.
  unfold Update. destruct (Entry.Action r =? ActionOutput)%string; [reflexivity|].
  destruct (_ || _); simpl; now rewrite app_nil_r.
Qed.

Lemma find_replace_first_other (key k : string) (f : Test.t -> Test.t)
  (l l' : list Test.t) :
  (forall x, key_of (f x) = key_of x) ->
  replace_first key f l = Some l' ->
  k <> key ->
  List.find (fun tc => (key_of tc =? k)%string) l'
  = List.find (fun tc => (key_of tc =? k)%string) l.
Proof.
  intros Hf. revert l'. induction l as [|a l IH]; intros l'; simpl; [discriminate|].
  destruct (String.eqb_spec (key_of a) key) as [Ha|Ha].
  - intros [= <-] Hk. simpl. rewrite Hf.
    destruct (String.eqb_spec (key_of a) k); [congruence | reflexivity].
  - destruct (replace_first key f l) as [l1|]; [|discriminate]. simpl.
    intros [= <-] Hk. simpl. now rewrite (IH l1 eq_refl Hk).
Qed.

(** Changing the Test of one key leaves what [find] returns for every
    other key. *)
Lemma modify_other (key k : string) (f : Test.t -> Test.t) (root root' : prefixNode) :
  (forall x, key_of (f x) = key_of x) ->
  Trie.modify key f root = Some root' ->
  k <> key ->
  Trie.find root' k = Trie.find root k.
Proof.
  intros Hf H Hk. pose proof (tests_modify key f root) as E. rewrite H in E. simpl in E.
  unfold Trie.find. symmetry in E. exact (@find_replace_first_other _ _ _ _ _ Hf E Hk).
Qed.

Lemma find_unique_in (l : list Test.t) (t : Test.t) :
  NoDup (map key_of l) -> In t l ->
  List.find (fun tc => (key_of tc =? key_of t)%string) l = Some t.
Proof.
  induction l as [|a l IH]; simpl; [contradiction|].
  intros Hn Hin. inversion Hn as [|? ? Hnot Hn']; subst.
  destruct (String.eqb_spec (key_of a) (key_of t)) as [E|E].
  - destruct Hin as [->|Hin]; [reflexivity|].
    exfalso. apply Hnot. rewrite E. now apply in_map.
  - destruct Hin as [->|Hin]; [contradiction|]. now apply IH.
Qed.

(** Where the Tests of the tree after [insert] come from: they were
    there, or are the Test inserted, or the Test of a missing ancestor,
    made without output. *)
Lemma insert_origin (children : list prefixNode) (obj : Test.t) :
  Trie.find (Node None children) (key_of obj) = None ->
  forall x, In x (Trie.tests (Trie.insert (Node None children) obj)) ->
            In x (Trie.tests (Node None children)) \/ x = obj
            \/ exists name, x = Test.mk name (Test.Package obj) [] "" 0.
Proof.
  intros Hnone x. unfold Trie.insert.
  destruct (@ensure_spec (Test.Package obj) (Trie.parents (Test.Name obj)) None children I)
    as (parent & cs1 & -> & Hp & _ & _ & Horigin).
  assert (Hx : In x (Trie.tests (Node None cs1)) ->
               In x (Trie.tests (Node None children))
               \/ x = obj \/ exists name, x = Test.mk name (Test.Package obj) [] "" 0).
  { intros Hin. destruct (Horigin x Hin) as [H|(n & _ & ->)]; [auto|]. right. right. eauto. }
  destruct (Trie.find (Node None cs1) (key_of obj)); [exact Hx|].
  intros Hin. apply (Permutation_in _ (Permutation_sym (@attach_perm parent obj cs1 Hp))) in Hin.
  destruct Hin as [<-|Hin]; auto.
Qed.

(** [insert] of a Test without output leaves the output under every key. *)
Lemma insert_outputs (children : list prefixNode) (obj : Test.t) (k : string) :
  unique_keys (Node None children) ->
  Trie.find (Node None children) (key_of obj) = None ->
  Test.Output obj = [] ->
  outputs_of (Trie.insert (Node None children) obj) k = outputs_of (Node None children) k.
Proof.
  intros Hu Hnone Hout. pose proof (@insert_origin children obj Hnone) as Horigin.
  destruct (@insert_spec children obj Hnone) as (cs & E & _ & Hu' & Hincl).
  rewrite E in *. specialize (Hu' Hu). unfold outputs_of.
  destruct (Trie.find (Node None children) k) as [t|] eqn:F.
  - unfold Trie.find in F. apply find_some in F as [Hin Hk]. apply String.eqb_eq in Hk.
    subst k. unfold Trie.find. now rewrite (@find_unique_in _ t Hu' (Hincl t Hin)).
  - destruct (Trie.find (Node None cs) k) as [x|] eqn:F'; [|reflexivity].
    unfold Trie.find in F'. apply find_some in F' as [Hin Hk]. apply String.eqb_eq in Hk.
    destruct (Horigin x Hin) as [H|[->|(n & ->)]]; [|exact Hout|reflexivity].
    exfalso. apply (find_none _ _ F) in H. apply String.eqb_neq in H. contradiction.
Qed.

(** One round of the loop: the fragment of an output event goes behind
    the output of the Test of its key, and the output under every other
    key stays. *)
Lemma fold_row_outputs (r : Entry.t) (children : list prefixNode) (k : string) :
  unique_keys (Node None children) ->
  outputs_of (fold_row r (Node None children)) k
  = (outputs_of (Node None children) k ++ outputs_for k [r])%list.
Proof.
  intros Hu. unfold outputs_for. simpl flat_map. rewrite app_nil_r.
  destruct (Entry.TestName r) as [|c name] eqn:En.
  - rewrite (fold_row_no_name r _ En). simpl. now rewrite app_nil_r.
  - assert (Hn : Entry.TestName r <> "") by (rewrite En; discriminate).
    rewrite <- En, (name_test r Hn). simpl andb.
    destruct (String.eqb_spec (event_key r) k) as [<-|Hk]; simpl andb.
    + unfold outputs_of.
      destruct (Trie.find (Node None children) (event_key r)) as [tc|] eqn:F.
      * destruct (@fold_row_later r _ tc Hn F) as [-> _]. apply Output_Update.
      * rewrite (@fold_row_first r children Hn F). apply Output_Update.
    + rewrite app_nil_r. unfold fold_row. rewrite (name_test r Hn).
      fold (event_key r). fold (new_Test r).
      assert (Hk' : k <> event_key r) by congruence.
      destruct (Trie.find (Node None children) (event_key r)) as [tc|] eqn:F.
      * destruct (@modify_found (event_key r) (fun x => Update x r) _ tc F
                    (key_of_Update tc r)) as (root' & E & _). rewrite E.
        unfold outputs_of.
        now rewrite (@modify_other _ k _ _ _ (fun x => key_of_Update x r) E Hk').
      * pose proof (@find_insert_new children (new_Test r) F) as Hi.
        change (key_of (new_Test r)) with (event_key r) in Hi.
        destruct (@modify_found (event_key r) (fun x => Update x r) _ _ Hi
                    (key_of_Update (new_Test r) r)) as (root' & E & _). rewrite E.
        unfold outputs_of at 1.
        rewrite (@modify_other _ k _ _ _ (fun x => key_of_Update x r) E Hk').
        exact (@insert_outputs children (new_Test r) k Hu F eq_refl).
Qed.

(** The loop: the output of the Test of a key is the output it had, then
    the fragments of the output events of that key, in their order. *)
Lemma run_outputs (rows : list Entry.t) (children : list prefixNode) (k : string) :
  unique_keys (Node None children) ->
  outputs_of (run rows (Node None children)) k
  = (outputs_of (Node None children) k ++ outputs_for k rows)%list.
Proof.
  revert children. induction rows as [|r rows IH]; intros children Hu.
  - simpl. now rewrite app_nil_r.
  - simpl run. pose proof (@fold_row_unique r children Hu) as Hu'.
    pose proof (@fold_row_outputs r children k Hu) as Ho.
    destruct (fold_row_root r children) as (cs & E). rewrite E in *.
    fold (run rows (Node None cs)). rewrite (IH cs Hu'), Ho, <- app_assoc.
    change (r :: rows) with ([r] ++ rows)%list. unfold outputs_for.
    now rewrite flat_map_app.
Qed.

(** After the loop, every line with a test name has its Test in the
    tree, and the output of that Test is made of the fragments of the
    output events of its key, in the order of the stream. *)
Lemma run_holds_line (lines : list Line) (l : Line) :
  In l lines -> Entry.TestName (row l) <> "" ->
  exists t,
    Trie.find (run (map row lines) (Node None [])) (event_key (row l)) = Some t
    /\ key_of t = event_key (row l)
    /\ Test.Output t = outputs_for (event_key (row l)) (map row lines).
Proof.
  intros Hl Hn.
  pose proof (@run_outputs (map row lines) [] (event_key (row l)) (NoDup_nil _)) as Ho.
  assert (F : Trie.find (run (map row lines) (Node None [])) (event_key (row l)) <> None).
  { apply in_split in Hl as (l1 & l2 & ->).
    rewrite map_app, run_app. simpl. destruct (run_root (map row l1) []) as (cs & ->).
    apply (@run_after_event (map row l2) (row l) cs Hn). }
  unfold outputs_of in Ho.
  destruct (Trie.find (run (map row lines) (Node None [])) (event_key (row l)))
    as [t|] eqn:E; [|contradiction].
  exists t. split; [reflexivity|]. split; [|exact Ho].
  unfold Trie.find in E. apply find_some in E as [_ Hk]. now apply String.eqb_eq.
Qed.

Lemma events_for_app (k : string) (l1 l2 : list Entry.t) :
  events_for k (l1 ++ l2) = (events_for k l1 ++ events_for k l2)%list.
Proof. apply filter_app. Qed.

(** What [find] returns after [insert] for a key other than the one
    inserted: what it returned before, or the blank Test of an ancestor
    that was missing. *)
Lemma insert_find_other (children : list prefixNode) (obj : Test.t) (k : string) :
  unique_keys (Node None children) ->
  Trie.find (Node None children) (key_of obj) = None ->
  k <> key_of obj ->
  Trie.find (Trie.insert (Node None children) obj) k = Trie.find (Node None children) k
  \/ (Trie.find (Node None children) k = None
      /\ exists x, Trie.find (Trie.insert (Node None children) obj) k = Some x
                   /\ key_of x = k /\ blank x).
Proof.
  intros Hu Hnone Hk. pose proof (@insert_origin children obj Hnone) as Horigin.
  destruct (@insert_spec children obj Hnone) as (cs & E & _ & Hu' & Hincl).
  rewrite E in *. specialize (Hu' Hu).
  destruct (Trie.find (Node None children) k) as [t|] eqn:F.
  - left. unfold Trie.find in F. apply find_some in F as [Hin Hkt].
    apply String.eqb_eq in Hkt. subst k. unfold Trie.find.
    exact (@find_unique_in _ t Hu' (Hincl t Hin)).
  - destruct (Trie.find (Node None cs) k) as [x|] eqn:F'; [|now left].
    right. split; [reflexivity|]. exists x. split; [reflexivity|].
    unfold Trie.find in F'. apply find_some in F' as [Hin Hkx]. apply String.eqb_eq in Hkx.
    split; [exact Hkx|].
    destruct (Horigin x Hin) as [H|[->|(n & ->)]].
    + exfalso. apply (find_none _ _ F) in H. apply String.eqb_neq in H. contradiction.
    + congruence.
    + repeat split.
Qed.

(** One round of the loop keeps the tree in step with the events. *)
Lemma fold_row_holds (r : Entry.t) (rows : list Entry.t) (children : list prefixNode) :
  unique_keys (Node None children) ->
  (forall k, holds_events (Node None children) rows k) ->
  forall k, holds_events (fold_row r (Node None children)) (rows ++ [r]) k.
Proof.
  intros Hu Hinv k. specialize (Hinv k). unfold holds_events in *.
  rewrite events_for_app. unfold events_for at 2 4. simpl filter.
  destruct (Entry.TestName r) as [|c name] eqn:En.
  - rewrite (fold_row_no_name r _ En). simpl. rewrite app_nil_r. exact Hinv.
  - assert (Hn : Entry.TestName r <> "") by (rewrite En; discriminate).
    rewrite <- En, (name_test r Hn). simpl andb.
    destruct (String.eqb_spec (event_key r) k) as [<-|Hk].
    + destruct (Trie.find (Node None children) (event_key r)) as [tc|] eqn:F.
      * destruct (@fold_row_later r _ tc Hn F) as [-> _].
        destruct Hinv as (t0 & H1 & H2 & ->). exists t0. split; [exact H1|].
        split; [exact H2|]. now rewrite fold_left_app.
      * rewrite (@fold_row_first r children Hn F), Hinv.
        exists (new_Test r). repeat split.
    + rewrite app_nil_r. assert (Hk' : k <> event_key r) by congruence.
      unfold fold_row. rewrite (name_test r Hn). fold (event_key r). fold (new_Test r).
      destruct (Trie.find (Node None children) (event_key r)) as [tc|] eqn:F.
      * destruct (@modify_found (event_key r) (fun x => Update x r) _ tc F
                    (key_of_Update tc r)) as (root' & E & _). rewrite E.
        now rewrite (@modify_other _ k _ _ _ (fun x => key_of_Update x r) E Hk').
      * pose proof (@find_insert_new children (new_Test r) F) as Hi.
        change (key_of (new_Test r)) with (event_key r) in Hi.
        destruct (@modify_found (event_key r) (fun x => Update x r) _ _ Hi
                    (key_of_Update (new_Test r) r)) as (root' & E & _). rewrite E.
        rewrite (@modify_other _ k _ _ _ (fun x => key_of_Update x r) E Hk').
        destruct (@insert_find_other children (new_Test r) k Hu F Hk')
          as [->|(Fk & x & -> & Hx & Hb)]; [exact Hinv|].
        rewrite Fk in Hinv. rewrite Hinv. exists x. repeat split; auto; apply Hb.
Qed.

Lemma run_holds (rows2 : list Entry.t) :
  forall rows1 children,
    unique_keys (Node None children) ->
    (forall k, holds_events (Node None children) rows1 k) ->
    forall k, holds_events (run rows2 (Node None children)) (rows1 ++ rows2) k.
Proof.
  induction rows2 as [|r rows2 IH]; intros rows1 children Hu Hinv k.
  - simpl. rewrite app_nil_r. apply Hinv.
  - simpl run. pose proof (@fold_row_unique r children Hu) as Hu'.
    pose proof (@fold_row_holds r rows1 children Hu Hinv) as Hinv'.
    destruct (fold_row_root r children) as (cs & E). rewrite E in *.
    fold (run rows2 (Node None cs)).
    change (r :: rows2) with ([r] ++ rows2)%list. rewrite app_assoc.
    now apply IH.
Qed.

(** After the loop, the Test of every key is the blank Test of that key
    updated with all the events of the key, in the order of the stream. *)
Lemma run_folded (rows : list Entry.t) (k : string) (t : Test.t) :
  Trie.find (run rows (Node None [])) k = Some t ->
  folded_from k (events_for k rows) t.
Proof.
  intros F.
  pose proof (@run_holds rows [] [] (NoDup_nil _) (fun _ => eq_refl) k) as H.
  unfold holds_events in H. simpl app in H. now rewrite F in H.
Qed.

(* ===================================================================== *)
(** ** C7, C10: what a failed decode leaves of the stream *)
(* ===================================================================== *)

(** The walk of a tree that the loop has built: it returns, with the
    [NestedTest] of every top-level subtree, and these hold every Test of
    the tree. *)
Lemma top_level_built
  (pdqsort : (string -> string -> bool) -> list string -> list string)
  (rows : list Entry.t) :
  walk_top pdqsort (children_of (run rows (Node None []))) []
  = Some (top_level pdqsort (run rows (Node None [])))
  /\ flat_map nested_tests (top_level pdqsort (run rows (Node None [])))
     = map cleared (Trie.tests (run rows (Node None []))).
Proof.
  pose proof (@has_Tests_run rows [] eq_refl) as H. unfold top_level.
  destruct (run_root rows []) as (cs & E0). rewrite E0 in *. simpl in *.
  pose proof (@walk_top_returns pdqsort cs H []) as Hr.
  destruct (walk_top pdqsort cs []) as [tcs|] eqn:W; [|contradiction].
  pose proof (@walk_top_nested _ _ _ _ W) as E. simpl in E. subst tcs.
  split; [reflexivity|]. exact (@walk_top_tests _ _ _ _ W).
Qed.

(** [ReadAll], when no round observes a cancelled context, in closed form. *)
Lemma ReadAll_closed_form
  (pdqsort : (string -> string -> bool) -> list string -> list string)
  (ctx : nat -> option string) (lines : list Line) :
  (forall j, j < List.length lines -> ctx j = None) ->
  ReadAll pdqsort ctx lines
  = ReadReturn (mkSet (errors.Join (decode_errs lines))
                      (top_level pdqsort (run (map row lines) (Node None [])))) None.
Proof.
  intros H. rewrite (@ReadAll_not_cancelled pdqsort ctx lines H). unfold finish.
  now rewrite (proj1 (top_level_built pdqsort (map row lines))).
Qed.

Lemma decode_errs_app (l1 l2 : list Line) :
  decode_errs (l1 ++ l2) = (decode_errs l1 ++ decode_errs l2)%list.
Proof. apply flat_map_app. Qed.

Lemma Join_with_error (a : list string) (e : string) (b : list string) :
  errors.Join (a ++ e :: b) = Some (a ++ e :: b)%list.
Proof. destruct a; reflexivity. Qed.

Lemma found_is_reported
  (pdqsort : (string -> string -> bool) -> list string -> list string)
  (rows : list Entry.t) (k : string) (t : Test.t) :
  Trie.find (run rows (Node None [])) k = Some t ->
  In (cleared t) (flat_map nested_tests (top_level pdqsort (run rows (Node None [])))).
Proof.
  intros F. rewrite (proj2 (top_level_built pdqsort rows)). apply in_map.
  unfold Trie.find in F. now apply find_some in F as [Hin _].
Qed.

(** C7: when no round of the loop observes a cancelled context, a line
    that fails to decode does not stop the loop.  [ReadAll] returns, with
    a nil error; the [Set] holds the join of the errors of all the failed
    lines, which is nil exactly when no line failed, and the [NestedTest]
    of every top-level subtree of the tree built from all the lines.
    These hold every Test of the tree; every line with a test name has
    its Test there, found under its key: a blank Test of that key
    updated with every event of the key, in the order of the stream, so
    that its output is made of the fragments of all the output events of
    the key.  A failed line that left no test name in its record changes
    nothing but the error: the tree and the Tests are those of the stream
    without that line, every Test of that stream is there with all its
    output, and the error of the [Set] is not nil. *)
Theorem decode_errors_do_not_stop
  (pdqsort : (string -> string -> bool) -> list string -> list string)
  (ctx : nat -> option string) (lines : list Line) :
  (forall j, j < List.length lines -> ctx j = None) ->
  let tree := run (map row lines) (Node None []) in
  let tests := top_level pdqsort tree in
  ReadAll pdqsort ctx lines
  = ReadReturn (mkSet (errors.Join (decode_errs lines)) tests) None
  /\ (forall e, In (wrap_err e) (decode_errs lines)
                <-> exists l, In l lines /\ unmarshal_err l = Some e)
  /\ (errors.Join (decode_errs lines) = None
      <-> forall l, In l lines -> unmarshal_err l = None)
  /\ flat_map nested_tests tests = map cleared (Trie.tests tree)
  /\ (forall l,
        In l lines -> Entry.TestName (row l) <> "" ->
        exists t,
          Trie.find tree (event_key (row l)) = Some t
          /\ key_of t = event_key (row l)
          /\ folded_from (event_key (row l))
                         (events_for (event_key (row l)) (map row lines)) t
          /\ Test.Output t = outputs_for (event_key (row l)) (map row lines)
          /\ In (cleared t) (flat_map nested_tests tests))
  /\ (forall l1 bad l2 e,
        lines = (l1 ++ bad :: l2)%list ->
        unmarshal_err bad = Some e ->
        Entry.TestName (row bad) = "" ->
        run (map row (l1 ++ l2)) (Node None []) = tree
        /\ ReadAll pdqsort ctx (l1 ++ l2)
           = ReadReturn (mkSet (errors.Join (decode_errs l1 ++ decode_errs l2)) tests) None
        /\ errors.Join (decode_errs lines)
           = Some (decode_errs l1 ++ wrap_err e :: decode_errs l2)%list
        /\ (forall l,
              In l (l1 ++ l2) -> Entry.TestName (row l) <> "" ->
              exists t,
                Trie.find tree (event_key (row l)) = Some t
                /\ key_of t = event_key (row l)
                /\ folded_from (event_key (row l))
                               (events_for (event_key (row l)) (map row (l1 ++ l2))) t
                /\ Test.Output t = outputs_for (event_key (row l)) (map row (l1 ++ l2))
                /\ In (cleared t) (flat_map nested_tests tests))).
Proof.
  intros Hctx tree tests.
  assert (Hline : forall ls l,
            In l ls -> Entry.TestName (row l) <> "" ->
            exists t,
              Trie.find (run (map row ls) (Node None [])) (event_key (row l)) = Some t
              /\ key_of t = event_key (row l)
              /\ folded_from (event_key (row l))
                             (events_for (event_key (row l)) (map row ls)) t
              /\ Test.Output t = outputs_for (event_key (row l)) (map row ls)
              /\ In (cleared t)
                    (flat_map nested_tests
                       (top_level pdqsort (run (map row ls) (Node None []))))).
  { intros ls l Hl Hn. destruct (@run_holds_line ls l Hl Hn) as (t & F & Hk & Ho).
    exists t. split; [exact F|]. split; [exact Hk|].
    split; [exact (@run_folded _ _ _ F)|]. split; [exact Ho|].
    exact (@found_is_reported pdqsort _ _ _ F). }
  split; [now apply ReadAll_closed_form|].
  split; [|split; [apply decode_errs_nil|split;
    [exact (proj2 (top_level_built pdqsort (map row lines)))|split;
    [exact (Hline lines)|]]]].
  - intros e. unfold decode_errs. rewrite in_flat_map. split.
    + intros (l & Hl & Hin). exists l. split; [exact Hl|].
      destruct (unmarshal_err l) as [e'|]; [|contradiction].
      destruct Hin as [Hin|[]]. unfold wrap_err in Hin.
      apply append_cancel in Hin. congruence.
    + intros (l & Hl & E). exists l. split; [exact Hl|]. rewrite E. simpl. auto.
  - intros l1 bad l2 e -> Hbad Hname.
    assert (Etree : run (map row (l1 ++ l2)) (Node None []) = tree).
    { unfold tree. rewrite !map_app, !run_app. simpl.
      now rewrite (fold_row_no_name _ _ Hname). }
    split; [exact Etree|]. split; [|split].
    + rewrite ReadAll_closed_form.
      * unfold tests. now rewrite Etree, decode_errs_app.
      * intros j Hj. apply Hctx. rewrite length_app in *. simpl. lia.
    + rewrite decode_errs_app. simpl. rewrite Hbad. simpl. apply Join_with_error.
    + intros l Hl Hn. unfold tests. rewrite <- Etree. exact (Hline (l1 ++ l2)%list l Hl Hn).
Qed.

(** [decode_errors_do_not_stop] at [three_lines] and the context that is
    never cancelled: the line that failed is recorded, and the Test of
    the other two lines is there, with its verdict and its log. *)
Lemma decode_errors_do_not_stop_witness :
  ReadAll sort.insertionSort background three_lines
  = ReadReturn
      (mkSet (errors.Join (decode_errs three_lines))
             (top_level sort.insertionSort (run (map row three_lines) (Node None []))))
      None
  /\ errors.Join (decode_errs three_lines)
     = Some [wrap_err "unexpected end of JSON input"]
  /\ top_level sort.insertionSort (run (map row three_lines) (Node None []))
     = [mkNestedTest (Test.mk "TestA" "pkg" [] "pass" 0) []
          ("--- PASS: TestA (0.00s)" ++ NL)].
Proof.
  split; [|split; [vm_compute; reflexivity | vm_compute; reflexivity]].
  exact (proj1 (@decode_errors_do_not_stop sort.insertionSort background three_lines
                  (fun _ _ => eq_refl))).
Defined.

(** C10: a line whose decode failed and that left a test name in its
    record is folded as a decoded event is.  The round of the line records
    the error and folds the record: the Test of its key is looked up in
    the tree built so far, made when it is not there, and updated with
    the record, and the tree then holds exactly one Test of that key.  At
    the end of the stream the Test is in the tree and in the result: it
    is a blank Test of the key updated with every event of the key in
    the order of the stream, the record of the failed line among them,
    its fragment in the output.  The result is the one of the stream with
    the same record decoded, but for the error that the [Set] carries. *)
Theorem failed_decode_still_folded
  (pdqsort : (string -> string -> bool) -> list string -> list string)
  (ctx : nat -> option string) (l1 : list Line) (r : Entry.t) (e : string)
  (l2 : list Line) :
  (forall j, j < List.length (l1 ++ mkLine r (Some e) :: l2) -> ctx j = None) ->
  Entry.TestName r <> "" ->
  let key := Entry.Package r ++ "/" ++ Entry.TestName r in
  let before := run (map row l1) (Node None []) in
  let after := fold_row r before in
  let lines := (l1 ++ mkLine r (Some e) :: l2)%list in
  let tree := run (map row lines) (Node None []) in
  scan_loop ctx 0 (l1 ++ [mkLine r (Some e)]) [] (Node None [])
  = inr ((decode_errs l1 ++ [wrap_err e])%list, after)
  /\ Trie.find after key
     = Some (Update (match Trie.find before key with
                     | Some tc => tc
                     | None => new_Test r
                     end) r)
  /\ (forall tc, Trie.find before key = Some tc ->
                 replace_first key (fun x => Update x r) (Trie.tests before)
                 = Some (Trie.tests after))
  /\ List.length (filter (fun x => (key_of x =? key)%string) (Trie.tests after)) = 1
  /\ tree = run (map row l2) after
  /\ (exists t,
        Trie.find tree key = Some t
        /\ key_of t = key
        /\ folded_from key (events_for key (map row lines)) t
        /\ Test.Output t = outputs_for key (map row lines)
        /\ In (cleared t) (flat_map nested_tests (top_level pdqsort tree)))
  /\ In r (events_for key (map row lines))
  /\ (Entry.Action r = ActionOutput ->
      In (Entry.Output r) (outputs_for key (map row lines)))
  /\ ReadAll pdqsort ctx lines
     = ReadReturn
         (mkSet (Some (decode_errs l1 ++ wrap_err e :: decode_errs l2)%list)
                (top_level pdqsort tree)) None
  /\ ReadAll pdqsort ctx (l1 ++ mkLine r None :: l2)
     = ReadReturn
         (mkSet (errors.Join (decode_errs l1 ++ decode_errs l2))
                (top_level pdqsort tree)) None.
Proof.
  intros Hctx Hn key before after lines tree.
  fold (event_key r) in key.
  destruct (run_root (map row l1) []) as (cs & Eb). fold before in Eb.
  assert (Hu : unique_keys before) by (apply run_unique; constructor).
  assert (Hfind : Trie.find after key
                  = Some (Update (match Trie.find before key with
                                  | Some tc => tc
                                  | None => new_Test r
                                  end) r)).
  { unfold after. destruct (Trie.find before key) as [tc|] eqn:F.
    - exact (proj1 (@fold_row_later r before tc Hn F)).
    - rewrite Eb in *. exact (@fold_row_first r cs Hn F). }
  assert (Hin : In r (map row lines)).
  { unfold lines. rewrite map_app. apply in_or_app. right. left. reflexivity. }
  split; [|split; [exact Hfind|split; [|split; [|split; [|split; [|split;
    [|split; [|split]]]]]]]].
  - rewrite scan_loop_all.
    + simpl app. rewrite decode_errs_app, map_app, run_app. simpl.
      unfold record_err. reflexivity.
    + intros j Hj. apply Hctx. rewrite length_app in *. simpl in *. lia.
  - intros tc F. exact (proj2 (@fold_row_later r before tc Hn F)).
  - apply unique_keys_one.
    + unfold after. rewrite Eb in *. now apply fold_row_unique.
    + apply find_not_None. rewrite Hfind. discriminate.
  - unfold tree, lines, after, before. now rewrite map_app, run_app.
  - destruct (@run_holds_line lines (mkLine r (Some e))) as (t & F & Hk & Ho).
    + unfold lines. apply in_or_app. right. left. reflexivity.
    + exact Hn.
    + exists t. split; [exact F|]. split; [exact Hk|].
      split; [exact (@run_folded _ _ _ F)|]. split; [exact Ho|].
      exact (@found_is_reported pdqsort _ _ _ F).
  - unfold events_for. apply filter_In. split; [exact Hin|].
    rewrite (name_test r Hn). unfold key. now rewrite String.eqb_refl.
  - intros Ha. unfold outputs_for. apply in_flat_map. exists r. split.
    + exact Hin.
    + rewrite (name_test r Hn), Ha. unfold key. rewrite !String.eqb_refl. simpl. auto.
  - rewrite (@ReadAll_closed_form pdqsort ctx lines Hctx). unfold lines at 1.
    rewrite decode_errs_app. simpl. now rewrite Join_with_error.
  - rewrite ReadAll_closed_form.
    + rewrite decode_errs_app. simpl. unfold tree, lines. now rewrite !map_app.
    + intros j Hj. apply Hctx. rewrite length_app in *. exact Hj.
Qed.

(** [failed_decode_still_folded] at the stream of [one_line] and a line
    that failed on the type of one field: the record is folded into the
    Test that the first line made, and the result holds it with the
    fragment in its log. *)
Lemma failed_decode_still_folded_witness :
  Trie.find (fold_row half_decoded (run (map row [one_line]) (Node None []))) "pkg/TestA"
  = Some (Test.mk "TestA" "pkg" ["--- PASS: TestA (0.00s)" ++ NL] "" 0)
  /\ ReadAll sort.insertionSort background
       ([one_line] ++ [mkLine half_decoded (Some half_decoded_err)])
     = ReadReturn
         (mkSet (Some [wrap_err half_decoded_err])
                [mkNestedTest (Test.mk "TestA" "pkg" [] "" 0) []
                   ("--- PASS: TestA (0.00s)" ++ NL)]) None.
Proof.
  destruct (@failed_decode_still_folded sort.insertionSort background [one_line]
              half_decoded half_decoded_err [] (fun _ _ => eq_refl))
    as (_ & Hfind & _ & _ & _ & _ & _ & _ & Hread & _).
  - discriminate.
  - split; [exact Hfind | exact Hread].
Defined.
